(** * annotate_chords: chord normalisation, key selection and annotation

    A shallow embedding of [annotate_chords.py].  A Python [str] is a
    sequence of code points; the embedding covers the code points 0..255
    (Latin-1), one [ascii] per code point, with Python's character
    classification tabulated for that range.  A Python [int] is a [Z], a
    [dict] an association list kept in insertion order. *)

From Stdlib Require Import Ascii String DecimalString DecimalPos.
From Stdlib Require Import List Bool Arith ZArith Lia Permutation.
Import ListNotations.

Local Open Scope string_scope.
Local Open Scope list_scope.
Local Open Scope bool_scope.
Local Open Scope nat_scope.

(** ** Strings and characters *)

Definition str : Type := list ascii.

(** String literals of the source. *)
Definition lit (s : string) : str := list_ascii_of_string s.

Definition ord (c : ascii) : N := N_of_ascii c.

Definition between (lo hi : N) (c : ascii) : bool :=
  (N.leb lo (ord c)) && (N.leb (ord c) hi).

Definition is_code (n : N) (c : ascii) : bool := N.eqb (ord c) n.

(** [c in chars] for a one-character [c]. *)
Definition char_in (c : ascii) (chars : str) : bool :=
  existsb (Ascii.eqb c) chars.

Definition str_eq_dec : forall a b : str, {a = b} + {a <> b} :=
  list_eq_dec ascii_dec.

Definition str_eqb (a b : str) : bool :=
  if str_eq_dec a b then true else false.

(** [str.isspace] on a character: TAB..CR, FS..US, space, NEL, NBSP. *)
Definition isspace (c : ascii) : bool :=
  between 9 13 c || between 28 32 c || is_code 133 c || is_code 160 c.

(** [str.isdigit]: the decimal digits and the superscripts 2, 3, 1. *)
Definition isdigit (c : ascii) : bool :=
  between 48 57 c || is_code 178 c || is_code 179 c || is_code 185 c.

(** [str.isalpha]: categories Lu, Ll, Lo of Latin-1. *)
Definition isalpha (c : ascii) : bool :=
  between 65 90 c || between 97 122 c
  || is_code 170 c || is_code 181 c || is_code 186 c
  || between 192 214 c || between 216 246 c || between 248 255 c.

(** [str.islower]: characters with the Lowercase property. *)
Definition islower (c : ascii) : bool :=
  between 97 122 c
  || is_code 170 c || is_code 181 c || is_code 186 c
  || between 223 246 c || between 248 255 c.

(** [\w] of [re] on [str] patterns: alphanumeric or underscore; the
    alphanumerics of Latin-1 are the letters, the digits and the three
    vulgar fractions. *)
Definition isword (c : ascii) : bool :=
  isalpha c || isdigit c || between 188 190 c || is_code 95 c.

(** [str.lower] on a character; closed on Latin-1. *)
Definition lower_char (c : ascii) : ascii :=
  if between 65 90 c || between 192 214 c || between 216 222 c
  then ascii_of_N (ord c + 32) else c.

(** [str.upper] on a character.  The uppercase forms of U+00B5, U+00DF
    and U+00FF lie outside Latin-1 (or are the two letters SS); the source
    only tests an upper-cased character for membership in A..H, which none
    of them passes, so they are left in place. *)
Definition upper_char (c : ascii) : ascii :=
  if between 97 122 c || between 224 246 c || between 248 254 c
  then ascii_of_N (ord c - 32) else c.

Definition lower (s : str) : str := map lower_char s.
Definition upper (s : str) : str := map upper_char s.

Fixpoint startswith (s prefix : str) : bool :=
  match prefix, s with
  | [], _ => true
  | p :: prefix', c :: s' => Ascii.eqb c p && startswith s' prefix'
  | _ :: _, [] => false
  end.

Definition endswith (s suffix : str) : bool :=
  startswith (rev s) (rev suffix).

Fixpoint dropwhile (p : ascii -> bool) (s : str) : str :=
  match s with
  | [] => []
  | c :: s' => if p c then dropwhile p s' else s
  end.

Fixpoint takewhile (p : ascii -> bool) (s : str) : str :=
  match s with
  | [] => []
  | c :: s' => if p c then c :: takewhile p s' else []
  end.

(** [s.strip()] *)
Definition strip (s : str) : str :=
  rev (dropwhile isspace (rev (dropwhile isspace s))).

(** [text[a:b]] for [0 <= a], [0 <= b]. *)
Definition slice (text : str) (a b : nat) : str :=
  firstn (b - a) (skipn a text).

(** [f"{n}"] for an [int]. *)
Definition str_of_int (n : Z) : str :=
  lit (NilZero.string_of_int (Z.to_int n)).

(** Truthiness of an optional string: [None] and [""] are false. *)
Definition truthy (o : option str) : bool :=
  match o with
  | Some (_ :: _) => true
  | _ => false
  end.

(** ** Dictionaries *)

Section Dict.
Context {K V : Type} (eqb : K -> K -> bool).

Definition dict : Type := list (K * V).

Fixpoint dict_get (d : dict) (k : K) : option V :=
  match d with
  | [] => None
  | (k', v) :: d' => if eqb k k' then Some v else dict_get d' k
  end.

Definition dict_contains (d : dict) (k : K) : bool :=
  match dict_get d k with Some _ => true | None => false end.

(** [d.setdefault(k, v)]: a present key keeps its value. *)
Definition dict_setdefault (d : dict) (k : K) (v : V) : dict :=
  if dict_contains d k then d else d ++ [(k, v)].

(** [d[k] = v]: a present key keeps its place and takes the new value. *)
Fixpoint dict_set (d : dict) (k : K) (v : V) : dict :=
  match d with
  | [] => [(k, v)]
  | (k', v') :: d' =>
      if eqb k k' then (k', v) :: d' else (k', v') :: dict_set d' k v
  end.
End Dict.

Arguments dict : clear implicits.

(** ** Symbol tables *)

Definition ENHARMONIC_EQUIVALENTS : dict str str :=
  [ (lit "AB", lit "G#");
    (lit "BB", lit "A#");
    (lit "CB", lit "B");
    (lit "DB", lit "C#");
    (lit "EB", lit "D#");
    (lit "FB", lit "E");
    (lit "GB", lit "F#");
    (lit "E#", lit "F");
    (lit "B#", lit "C") ].

Definition MAJOR_SCALES : dict str (list str) :=
  [ (lit "C",  map lit ["C"; "Dm"; "Em"; "F"; "G"; "Am"; "Bm"]);
    (lit "C#", map lit ["C#"; "D#m"; "Fm"; "F#"; "G#"; "A#m"; "Cm"]);
    (lit "D",  map lit ["D"; "Em"; "F#m"; "G"; "A"; "Bm"; "C#m"]);
    (lit "D#", map lit ["D#"; "Fm"; "Gm"; "G#"; "A#"; "Cm"; "Dm"]);
    (lit "E",  map lit ["E"; "F#m"; "G#m"; "A"; "B"; "C#m"; "D#m"]);
    (lit "F",  map lit ["F"; "Gm"; "Am"; "A#"; "C"; "Dm"; "Em"]);
    (lit "F#", map lit ["F#"; "G#m"; "A#m"; "B"; "C#"; "D#m"; "Fm"]);
    (lit "G",  map lit ["G"; "Am"; "Bm"; "C"; "D"; "Em"; "F#m"]);
    (lit "G#", map lit ["G#"; "A#m"; "Cm"; "C#"; "D#"; "Fm"; "Gm"]);
    (lit "A",  map lit ["A"; "Bm"; "C#m"; "D"; "E"; "F#m"; "G#m"]);
    (lit "A#", map lit ["A#"; "Cm"; "Dm"; "D#"; "F"; "Gm"; "Am"]);
    (lit "B",  map lit ["B"; "C#m"; "D#m"; "E"; "F#"; "G#m"; "A#m"]) ].

Definition MINOR_SCALES : dict str (list str) :=
  [ (lit "F#m", map lit ["F#m"; "G#"; "Am"; "Bm"; "C#"; "D"; "E"]);
    (lit "Gm",  map lit ["Gm"; "A"; "A#m"; "Cm"; "D"; "D#m"; "F"]);
    (lit "G#m", map lit ["G#m"; "A#"; "Bm"; "C#m"; "D#"; "Em"; "F#"]);
    (lit "Am",  map lit ["Am"; "B"; "Cm"; "Dm"; "E"; "Fm"; "G"]);
    (lit "A#m", map lit ["A#m"; "C"; "C#m"; "D#m"; "F"; "F#m"; "G#"]);
    (lit "Bm",  map lit ["Bm"; "C#"; "Dm"; "Em"; "F#"; "Gm"; "A"]) ].

Record Tonality : Type := mkTonality {
  key : str;
  mode : str;
  label : str;
  chord_map : dict str Z
}.

(** ** normalize_chord_symbol *)

(** The character class [[A-Ga-gHh]]. *)
Definition NOTE_LETTERS : str := lit "ABCDEFGabcdefgHh".

(** The character class [[.,:;!?]]. *)
Definition PUNCTUATION : str := lit ".,:;!?".

Definition newline : ascii := ascii_of_N 10.

(** [re.sub(r"[.,:;!?]+$", "", cleaned)].  The argument is stripped and not
    empty, so it does not end in a newline and [$] holds at its very end
    only: the substitution removes the trailing run of punctuation. *)
Definition sub_trailing_punctuation (cleaned : str) : str :=
  rev (dropwhile (fun c => char_in c PUNCTUATION) (rev cleaned)).

(** [cleaned.split("/")[0]] *)
Definition before_slash (cleaned : str) : str :=
  takewhile (fun c => negb (Ascii.eqb c "/")) cleaned.

(** The last group and the end anchor of [CHORD_TOKEN], on the rest of a
    token: the dot takes no newline and the dollar holds at the end of the
    string or just before a newline that ends it.  The result is group 3. *)
Definition match_tail (rest : str) : option str :=
  let line := takewhile (fun c => negb (Ascii.eqb c newline)) rest in
  let after := dropwhile (fun c => negb (Ascii.eqb c newline)) rest in
  match after with
  | [] => Some line
  | [_] => Some line
  | _ => None
  end.

(** [CHORD_TOKEN.match(base)]: a note letter (group 1), an optional
    accidental [#] or [b] (group 2) and the rest of the line (group 3).  The
    accidental is taken when it is there; leaving it out never rescues a
    failed rest, which stops at the same newline. *)
Definition CHORD_TOKEN_match (base : str) : option (str * str * str) :=
  match base with
  | [] => None
  | c :: rest =>
      if char_in c NOTE_LETTERS then
        match rest with
        | a :: rest' =>
            if char_in a (lit "#b") then
              match match_tail rest' with
              | Some tail => Some ([c], [a], tail)
              | None => None
              end
            else
              match match_tail rest with
              | Some tail => Some ([c], [], tail)
              | None => None
              end
        | [] => Some ([c], [], [])
        end
      else None
  end.

(** The classification of the tail into a quality suffix. *)
Definition quality_of (tail : str) : str :=
  let tail_lower := lower tail in
  if startswith tail_lower (lit "maj") then []
  else if startswith tail_lower (lit "min") then lit "m"
  else if startswith tail_lower (lit "m")
          && negb (startswith tail_lower (lit "maj")) then lit "m"
  else [].

(** [ENHARMONIC_EQUIVALENTS.get(note, note)] *)
Definition canonical_note_of (note : str) : str :=
  match dict_get str_eqb ENHARMONIC_EQUIVALENTS note with
  | Some n => n
  | None => note
  end.

(** The note of a match: groups 1 and 2 upper-cased, [H] turned into [B]. *)
Definition note_of (g1 g2 : str) : str :=
  let note := upper (g1 ++ g2) in
  if str_eqb note (lit "H") then lit "B" else note.

Definition normalize_chord_symbol (symbol : str) : option str :=
  let cleaned := strip symbol in
  match cleaned with
  | [] => None
  | _ :: _ =>
      let cleaned := sub_trailing_punctuation cleaned in
      let base := before_slash cleaned in
      match CHORD_TOKEN_match base with
      | None => None
      | Some (g1, g2, tail) =>
          let note := note_of g1 g2 in
          let quality := quality_of tail in
          let canonical_note := canonical_note_of note in
          Some (canonical_note ++ quality)
      end
  end.

(** [symbol[:-1]] *)
Definition drop_last (s : str) : str := removelast s.

Definition normalize_key_name (name mode : str) : option str :=
  match normalize_chord_symbol name with
  | None => None
  | Some [] => None
  | Some symbol =>
      if str_eqb mode (lit "major") && endswith symbol (lit "m") then
        match drop_last symbol with
        | [] => None
        | k => Some k
        end
      else if str_eqb mode (lit "minor") && negb (endswith symbol (lit "m"))
      then Some (symbol ++ lit "m")
      else Some symbol
  end.

(** ** build_tonalities *)

(** The inner loop over [enumerate(chords, start=1)]. *)
Fixpoint build_chord_map (chords : list str) (idx : Z) (chord_map : dict str Z)
  : dict str Z :=
  match chords with
  | [] => chord_map
  | chord :: chords' =>
      let chord_map' :=
        match normalize_chord_symbol chord with
        | Some (c :: n) => dict_setdefault str_eqb chord_map (c :: n) idx
        | _ => chord_map
        end in
      build_chord_map chords' (idx + 1)%Z chord_map'
  end.

Definition tonality_key_eqb (a b : str * str) : bool :=
  str_eqb (fst a) (fst b) && str_eqb (snd a) (snd b).

Definition catalog : Type := (list Tonality * dict (str * str) Tonality)%type.

(** The loop over [scales.items()] for one mode. *)
Fixpoint build_scales (mode : str) (scales : dict str (list str)) (acc : catalog)
  : catalog :=
  match scales with
  | [] => acc
  | (label, chords) :: scales' =>
      match normalize_key_name label mode with
      | None => build_scales mode scales' acc
      | Some normalized_key =>
          let tonality :=
            mkTonality normalized_key mode label (build_chord_map chords 1%Z []) in
          build_scales mode scales'
            (fst acc ++ [tonality],
             dict_set tonality_key_eqb (snd acc) (normalized_key, mode) tonality)
      end
  end.

Definition build_tonalities : catalog :=
  fold_left (fun acc ms => build_scales (fst ms) (snd ms) acc)
    [ (lit "major", MAJOR_SCALES); (lit "minor", MINOR_SCALES) ]
    ([], []).

Definition TONALITIES : list Tonality := fst build_tonalities.
Definition TONALITY_BY_KEY : dict (str * str) Tonality := snd build_tonalities.

(** ** Regular expressions

    The fragment of [re] that [CHORD_REGEX] is written in, with the
    backtracking order of [re]: alternatives left to right, greedy
    quantifiers.  [rx r text i k] matches [r] at index [i] of [text] and
    hands the index reached to the continuation [k]; when [k] fails the
    next way of matching [r] is tried. *)

Inductive regex : Type :=
| Class (chars : str)          (* one character of a class *)
| Lit (s : str)                (* a literal string *)
| Seq (r1 r2 : regex)
| Alt (r1 r2 : regex)          (* r1|r2 *)
| Opt (r : regex)              (* r? *)
| Star (r : regex)             (* r* *)
| WordBoundary                 (* \b *)
| NotAhead (r : regex).        (* (?!r) *)

(** A character at an index, [None] past the end. *)
Definition char_at (text : str) (i : nat) : option ascii := nth_error text i.

Definition word_at (text : str) (i : nat) : bool :=
  match char_at text i with
  | Some c => isword c
  | None => false
  end.

(** [\b]: exactly one of the characters before and at [i] is a word
    character; outside the string counts as a non-word character. *)
Definition word_boundary (text : str) (i : nat) : bool :=
  xorb (match i with O => false | S j => word_at text j end) (word_at text i).

(** The loop of a greedy star: [body i k] matches the starred expression
    at [i].  An iteration that consumes nothing is not taken; the bodies
    starred in this program all consume a character.  The fuel bounds the
    number of iterations by the length of the text, which no run reaches. *)
Fixpoint iterate (body : nat -> (nat -> option nat) -> option nat)
  (k : nat -> option nat) (fuel : nat) (i : nat) {struct fuel} : option nat :=
  match fuel with
  | O => k i
  | S fuel' =>
      match body i (fun j => if i <? j then iterate body k fuel' j else None) with
      | Some e => Some e
      | None => k i
      end
  end.

Fixpoint rx (r : regex) (text : str) (i : nat) (k : nat -> option nat)
  {struct r} : option nat :=
  match r with
  | Class chars =>
      match char_at text i with
      | Some c => if char_in c chars then k (S i) else None
      | None => None
      end
  | Lit s =>
      if startswith (skipn i text) s then k (i + length s) else None
  | Seq r1 r2 => rx r1 text i (fun j => rx r2 text j k)
  | Alt r1 r2 =>
      match rx r1 text i k with
      | Some e => Some e
      | None => rx r2 text i k
      end
  | Opt r1 =>
      match rx r1 text i k with
      | Some e => Some e
      | None => k i
      end
  | Star r1 => iterate (rx r1 text) k (S (length text)) i
  | WordBoundary => if word_boundary text i then k i else None
  | NotAhead r1 =>
      match rx r1 text i (fun j => Some j) with
      | Some _ => None
      | None => k i
      end
  end.

(** [pattern.match(text, pos)]: the end of the match that starts at [pos]. *)
Definition match_at (r : regex) (text : str) (pos : nat) : option nat :=
  rx r text pos (fun e => Some e).

(** [pattern.finditer(text)] as the list of spans: the leftmost match at or
    after the current position, then on from its end.  A match of this
    program's pattern is never empty; the scan steps over an empty one. *)
Fixpoint scan (r : regex) (text : str) (fuel : nat) (pos : nat)
  : list (nat * nat) :=
  match fuel with
  | O => []
  | S fuel' =>
      if length text <? pos then []
      else
        match match_at r text pos with
        | Some e => (pos, e) :: scan r text fuel' (if pos <? e then e else S pos)
        | None => scan r text fuel' (S pos)
        end
  end.

Definition finditer (r : regex) (text : str) : list (nat * nat) :=
  scan r text (S (length text)) 0.

Definition LOWERCASE : str := lit "abcdefghijklmnopqrstuvwxyz".
Definition DIGITS : str := lit "0123456789".

(** The quality and extension fragments of [CHORD_REGEX], in order. *)
Definition CHORD_FRAGMENT : regex :=
  Alt (Seq (Lit (lit "m")) (Opt (Alt (Lit (lit "aj")) (Lit (lit "in")))))
 (Alt (Lit (lit "sus"))
 (Alt (Lit (lit "dim"))
 (Alt (Lit (lit "aug"))
 (Alt (Lit (lit "add"))
 (Alt (Class DIGITS)
 (Alt (Seq (Lit (lit "/")) (Seq (Class NOTE_LETTERS) (Opt (Class (lit "#b")))))
      (Class (lit "+-")))))))).

(** [CHORD_REGEX]: a word boundary, the group (note letter, optional
    accidental, optional run of fragments), and the negative lookahead for a
    letter a..z. *)
Definition CHORD_REGEX : regex :=
  Seq WordBoundary
 (Seq (Seq (Class NOTE_LETTERS)
      (Seq (Opt (Class (lit "#b")))
           (Opt (Star CHORD_FRAGMENT))))
      (NotAhead (Class LOWERCASE))).

(** ** extract_chords *)

Fixpoint extract_from (text : str) (spans : list (nat * nat)) : list str :=
  match spans with
  | [] => []
  | (s, e) :: spans' =>
      match normalize_chord_symbol (slice text s e) with
      | Some (c :: n) => (c :: n) :: extract_from text spans'
      | _ => extract_from text spans'
      end
  end.

Definition extract_chords (text : str) : list str :=
  extract_from text (finditer CHORD_REGEX text).

(** ** annotate_text *)

(** A [while idx < len(text) and p(text[idx]): idx += 1] loop; [rest] is
    [text[idx:]]. *)
Fixpoint advance (p : ascii -> bool) (rest : str) (idx : nat) : nat :=
  match rest with
  | [] => idx
  | c :: rest' => if p c then advance p rest' (S idx) else idx
  end.

Definition skip_while (p : ascii -> bool) (text : str) (idx : nat) : nat :=
  advance p (skipn idx text) idx.

Definition char_is (text : str) (idx : nat) (c : ascii) : bool :=
  match char_at text idx with
  | Some c' => Ascii.eqb c' c
  | None => false
  end.

Definition _already_has_degree (text : str) (idx : nat) : bool :=
  let length := length text in
  let idx := skip_while isspace text idx in
  if (length <=? idx) || negb (char_is text idx "(") then false
  else
    let idx := S idx in
    let start := idx in
    let idx := skip_while isdigit text idx in
    (start <? idx) && (idx <? length) && char_is text idx ")".

Definition CHORD_ALPHABET : str :=
  lit "ABCDEFGHabcdefgh#bmsujdiaog0123456789/+-".

(** [is_next_word_chord] *)
Definition is_next_word_chord (next_word : str) : bool :=
  (0 <? length next_word) && (length next_word <=? 6)
  && match next_word with
     | c :: _ => char_in (upper_char c) (lit "ABCDEFGH")
     | [] => false
     end
  && forallb (fun c => char_in c CHORD_ALPHABET) next_word.

Definition is_blank (c : ascii) : bool := Ascii.eqb c " ".
Definition non_space (c : ascii) : bool := negb (isspace c).

(** The lone-letter test of the loop body: [true] when the branch that
    appends the chord and continues is taken. *)
Definition lone_letter_is_article (text chord : str) (end_ : nat) : bool :=
  if (length chord =? 1)
     && existsb (str_eqb (upper chord))
          (map lit ["A"; "B"; "C"; "D"; "E"; "F"; "G"; "H"])
  then
    if (end_ <? length text) && char_is text end_ " " then
      let next_char_idx :=
        skip_while is_blank text (S end_) in
      if next_char_idx <? length text then
        let next_word_end :=
          skip_while non_space text next_char_idx in
        let next_word := slice text next_char_idx next_word_end in
        negb (is_next_word_chord next_word)
      else false
    else false
  else false.

Definition followed_by_lowercase (text : str) (end_ : nat) : bool :=
  match char_at text end_ with
  | Some c => islower c && isalpha c
  | None => false
  end.

(** The piece appended for one match of the loop. *)
Definition annotate_match (text : str) (chord_map : dict str Z)
  (start end_ : nat) : str :=
  let chord := slice text start end_ in
  if followed_by_lowercase text end_ then chord
  else if lone_letter_is_article text chord end_ then chord
  else if _already_has_degree text end_ then chord
  else
    match normalize_chord_symbol chord with
    | Some (c :: n) =>
        match dict_get str_eqb chord_map (c :: n) with
        | Some degree =>
            if Z.eqb degree 0 then chord
            else chord ++ lit " (" ++ str_of_int degree ++ lit ")"
        | None => chord
        end
    | _ => chord
    end.

(** The pieces of the loop over the matches, then the rest of the text.
    The third parameter of the source, [all_tonalities], is never read. *)
Fixpoint annotate_pieces (text : str) (chord_map : dict str Z)
  (spans : list (nat * nat)) (last : nat) : list str :=
  match spans with
  | [] => [skipn last text]
  | (start, end_) :: spans' =>
      slice text last start
      :: annotate_match text chord_map start end_
      :: annotate_pieces text chord_map spans' end_
  end.

Definition annotate_text (text : str) (chord_map : dict str Z) : str :=
  concat (annotate_pieces text chord_map (finditer CHORD_REGEX text) 0).

(** ** select_tonality *)

(** The four [ValueError]s raised, by message. *)
Inductive ValueError : Type :=
| BadKeyName        (* the key name does not normalise *)
| KeyNotInTable     (* no table data for the key *)
| NoChordsInText    (* no chords found in the input text *)
| NoTonalityFound.  (* automatic detection failed *)

Inductive result (A : Type) : Type :=
| Ok (a : A)
| Raise (e : ValueError).

Arguments Ok {A} a.
Arguments Raise {A} e.

Definition score : Type := (nat * nat * nat)%type.

(** [a > b] on tuples of three integers: lexicographic. *)
Definition score_gt (a b : score) : bool :=
  let '(a1, a2, a3) := a in
  let '(b1, b2, b3) := b in
  (b1 <? a1) || ((b1 =? a1) && ((b2 <? a2) || ((b2 =? a2) && (b3 <? a3)))).

Definition in_chord_map (t : Tonality) (chord : str) : bool :=
  dict_contains str_eqb (chord_map t) chord.

(** [sum(1 for chord in chords if chord in tonality.chord_map)] *)
Definition total_hits (chords : list str) (t : Tonality) : nat :=
  length (filter (in_chord_map t) chords).

(** [len({ch for ch in chords if ch in tonality.chord_map})] *)
Definition unique_hits (chords : list str) (t : Tonality) : nat :=
  length (nodup str_eq_dec (filter (in_chord_map t) chords)).

(** [sum(1 for chord in chords if tonality.chord_map.get(chord) == 1)] *)
Definition tonic_hits (chords : list str) (t : Tonality) : nat :=
  length
    (filter
       (fun chord =>
          match dict_get str_eqb (chord_map t) chord with
          | Some d => Z.eqb d 1
          | None => false
          end)
       chords).

Definition score_of (chords : list str) (t : Tonality) : score :=
  (total_hits chords t, unique_hits chords t, tonic_hits chords t).

Definition mode_allowed (allowed_modes : list str) (t : Tonality) : bool :=
  existsb (str_eqb (mode t)) allowed_modes.

(** The scoring loop over the catalogue; [best] is the loop variable. *)
Fixpoint select_loop (allowed_modes : list str) (chords : list str)
  (tonalities : list Tonality) (best : option (score * Tonality))
  : option (score * Tonality) :=
  match tonalities with
  | [] => best
  | tonality :: rest =>
      if negb (mode_allowed allowed_modes tonality)
      then select_loop allowed_modes chords rest best
      else if total_hits chords tonality =? 0
      then select_loop allowed_modes chords rest best
      else
        let score := score_of chords tonality in
        match best with
        | None =>
            select_loop allowed_modes chords rest (Some (score, tonality))
        | Some (best_score, _) =>
            if score_gt score best_score
            then select_loop allowed_modes chords rest (Some (score, tonality))
            else select_loop allowed_modes chords rest best
        end
  end.

(** [{mode_arg.lower()} if mode_arg else {"major", "minor"}] *)
Definition allowed_modes_of (mode_arg : option str) : list str :=
  match mode_arg with
  | Some (c :: m) => [lower (c :: m)]
  | _ => [lit "major"; lit "minor"]
  end.

(** [(mode_arg or "major").lower()] *)
Definition explicit_mode (mode_arg : option str) : str :=
  match mode_arg with
  | Some (c :: m) => lower (c :: m)
  | _ => lower (lit "major")
  end.

Definition select_tonality (key_arg mode_arg : option str) (chords : list str)
  : result Tonality :=
  match key_arg with
  | Some (c :: key_name) =>
      let mode := explicit_mode mode_arg in
      match normalize_key_name (c :: key_name) mode with
      | None => Raise BadKeyName
      | Some [] => Raise BadKeyName
      | Some normalized_key =>
          match dict_get tonality_key_eqb TONALITY_BY_KEY (normalized_key, mode) with
          | None => Raise KeyNotInTable
          | Some tonality => Ok tonality
          end
      end
  | _ =>
      match chords with
      | [] => Raise NoChordsInText
      | _ :: _ =>
          match select_loop (allowed_modes_of mode_arg) chords TONALITIES None with
          | None => Raise NoTonalityFound
          | Some (_, tonality) => Ok tonality
          end
      end
  end.

(** ** Vocabulary of the specification *)

(** The twelve sharps-only roots. *)
Definition ROOTS : list str :=
  map lit ["C"; "C#"; "D"; "D#"; "E"; "F"; "F#"; "G"; "G#"; "A"; "A#"; "B"].

Definition str_mem (s : str) (l : list str) : bool := existsb (str_eqb s) l.

(** A canonical chord symbol: a root, or a root followed by [m]. *)
Definition is_canonical (s : str) : bool :=
  str_mem s (ROOTS ++ map (fun r => r ++ lit "m") ROOTS).

(** Every symbol that [normalize_chord_symbol] can build: a note letter, an
    accidental or none, a quality or none. *)
Definition NORMAL_FORMS : list str :=
  flat_map
    (fun c =>
       flat_map
         (fun a =>
            map (fun q => canonical_note_of (note_of [c] a) ++ q) [[]; lit "m"])
         [[]; lit "#"; lit "b"])
    NOTE_LETTERS.

(** A degree annotation: a space, an opening bracket, one or more decimal
    digits, a closing bracket. *)
Definition is_annotation (s : str) : bool :=
  match s with
  | " "%char :: "("%char :: rest =>
      let digits := takewhile (fun c => char_in c DIGITS) rest in
      match digits, dropwhile (fun c => char_in c DIGITS) rest with
      | _ :: _, [")"%char] => true
      | _, _ => false
      end
  | _ => false
  end.

(** [text] from index [last] on, with the strings of [ins] put in at their
    indices. *)
Fixpoint splice (text : str) (last : nat) (ins : list (nat * str)) : str :=
  match ins with
  | [] => skipn last text
  | (e, s) :: ins' => slice text last e ++ s ++ splice text e ins'
  end.

(** The indices of [ins] increase from [last] on and stay inside a text of
    length [n]. *)
Fixpoint ascending (last n : nat) (ins : list (nat * str)) : Prop :=
  match ins with
  | [] => True
  | (e, _) :: ins' => last < e /\ e <= n /\ ascending e n ins'
  end.

(** The same indices with nothing put in. *)
Definition erase (ins : list (nat * str)) : list (nat * str) :=
  map (fun p => (fst p, [])) ins.

(** [out] is [text] with degree annotations inserted right after chord
    matches, and nothing else changed. *)
Definition annotation_of (text out : str) : Prop :=
  exists ins : list (nat * str),
    ascending 0 (length text) ins
    /\ Forall
         (fun p =>
            is_annotation (snd p) = true
            /\ exists start, In (start, fst p) (finditer CHORD_REGEX text))
         ins
    /\ out = splice text 0 ins
    /\ splice text 0 (erase ins) = text.

(** A matcher hands its continuation an index between the start and the
    end of the text. *)
Definition reaches (text : str)
  (m : nat -> (nat -> option nat) -> option nat) : Prop :=
  forall i k e,
    i <= length text -> m i k = Some e ->
    exists j, i <= j /\ j <= length text /\ k j = Some e.

(** A matcher looks at its continuation only between its start and the
    end of the text. *)
Definition respects (text : str)
  (m : nat -> (nat -> option nat) -> option nat) : Prop :=
  forall i k k',
    i <= length text ->
    (forall j, i <= j -> j <= length text -> k j = k' j) ->
    m i k = m i k'.

(** The continuation cut off at and before index [i]. *)
Definition beyond (i : nat) (k : nat -> option nat) : nat -> option nat :=
  fun j => if i <? j then k j else None.

(** Expressions every match of which takes at least one character. *)
Fixpoint consuming (r : regex) : bool :=
  match r with
  | Class _ => true
  | Lit s => negb (length s =? 0)
  | Seq r1 r2 => consuming r1 || consuming r2
  | Alt r1 r2 => consuming r1 && consuming r2
  | Opt _ | Star _ | WordBoundary | NotAhead _ => false
  end.

(** Spans that follow one another from [last] on inside a text of length
    [n], none of them empty. *)
Fixpoint chained (last n : nat) (spans : list (nat * nat)) : Prop :=
  match spans with
  | [] => True
  | (s, e) :: spans' => last <= s /\ s < e /\ e <= n /\ chained e n spans'
  end.

(** What [annotate_match] appends after the chord. *)
Definition annotation_suffix (text : str) (chord_map : dict str Z)
  (start end_ : nat) : str :=
  skipn (end_ - start) (annotate_match text chord_map start end_).

(** The insertions of a run of [annotate_text]: the end of each annotated
    match with the annotation put there. *)
Fixpoint insertions (text : str) (chord_map : dict str Z)
  (spans : list (nat * nat)) : list (nat * str) :=
  match spans with
  | [] => []
  | (s, e) :: spans' =>
      match annotation_suffix text chord_map s e with
      | [] => insertions text chord_map spans'
      | suffix => (e, suffix) :: insertions text chord_map spans'
      end
  end.

(** The symbols outside the canonical set that normalisation can return:
    an [H] that kept its accidental. *)
Definition H_LEAKS : list str := map lit ["H#"; "H#m"; "HB"; "HBm"].

(** The next text after index [idx], whitespace skipped, is an opening
    bracket, one or more digits and a closing bracket. *)
Definition degree_follows (text : str) (idx : nat) : Prop :=
  exists ws ds rest,
    skipn idx text = ws ++ "("%char :: ds ++ ")"%char :: rest
    /\ forallb isspace ws = true
    /\ ds <> [] /\ forallb isdigit ds = true.

(** The next whitespace-delimited word after index [idx]. *)
Definition next_word_after (text : str) (idx : nat) : str :=
  let i := skip_while isspace text idx in
  slice text i (skip_while non_space text i).

(** The lone-letter guard as the specification words it: a match that is
    one letter of A..H, followed by whitespace, with a next word that is
    not chord-shaped, is emitted as it stands. *)
Definition article_guard_as_specified (text : str) (chord_map : dict str Z)
  (s e : nat) : Prop :=
  In (s, e) (finditer CHORD_REGEX text) ->
  (exists c, slice text s e = [c] /\ In c (lit "ABCDEFGH")) ->
  (exists w, char_at text e = Some w /\ isspace w = true) ->
  is_next_word_chord (next_word_after text e) = false ->
  annotate_match text chord_map s e = slice text s e.

(** The chord map of the catalogue's C major. *)
Definition C_MAJOR_MAP : dict str Z :=
  [ (lit "C", 1); (lit "Dm", 2); (lit "Em", 3); (lit "F", 4);
    (lit "G", 5); (lit "Am", 6); (lit "Bm", 7) ]%Z.

(** The character U+00E9, a lowercase letter outside a..z. *)
Definition e_acute : ascii := ascii_of_N 233.

(** One turn of the scoring loop on a tonality that takes part. *)
Definition keep_best (chords : list str) (best : option (score * Tonality))
  (t : Tonality) : option (score * Tonality) :=
  match best with
  | None => Some (score_of chords t, t)
  | Some (best_score, _) =>
      if score_gt (score_of chords t) best_score
      then Some (score_of chords t, t) else best
  end.

(** The error classes of the specification. *)
Inductive ErrorClass : Type := InvalidKey | NoChordsFound | NoTonalityMatch.

Definition classify (e : ValueError) : ErrorClass :=
  match e with
  | BadKeyName | KeyNotInTable => InvalidKey
  | NoChordsInText => NoChordsFound
  | NoTonalityFound => NoTonalityMatch
  end.

Definition failure (r : result Tonality) : option ErrorClass :=
  match r with
  | Ok _ => None
  | Raise e => Some (classify e)
  end.

(** A tonality that takes part in the scoring. *)
Definition is_candidate (allowed_modes : list str) (chords : list str)
  (t : Tonality) : bool :=
  mode_allowed allowed_modes t && negb (total_hits chords t =? 0).

Definition candidates (mode_arg : option str) (chords : list str)
  : list Tonality :=
  filter (is_candidate (allowed_modes_of mode_arg) chords) TONALITIES.

(** [winner] is the first of [cands] with the greatest score. *)
Definition first_best (chords : list str) (cands : list Tonality)
  (winner : Tonality) : Prop :=
  exists before after,
    cands = before ++ winner :: after
    /\ Forall (fun t => score_gt (score_of chords winner) (score_of chords t) = true)
         before
    /\ Forall (fun t => score_gt (score_of chords t) (score_of chords winner) = false)
         after.

Definition DEGREES : list Z := [1; 2; 3; 4; 5; 6; 7]%Z.

Definition well_formed_tonality (t : Tonality) : bool :=
  (length (chord_map t) =? 7)
  && (if list_eq_dec str_eq_dec
           (nodup str_eq_dec (map fst (chord_map t))) (map fst (chord_map t))
      then true else false)
  && forallb is_canonical (map fst (chord_map t))
  && (if list_eq_dec Z.eq_dec (map snd (chord_map t)) DEGREES
      then true else false).

(** ** Vocabulary of the further properties *)

(** The characters an expression can take. *)
Fixpoint alphabet (r : regex) : str :=
  match r with
  | Class chars => chars
  | Lit s => s
  | Seq r1 r2 | Alt r1 r2 => alphabet r1 ++ alphabet r2
  | Opt r1 | Star r1 => alphabet r1
  | WordBoundary | NotAhead _ => []
  end.

(** A matcher takes characters of [chars] only. *)
Definition takes (text : str) (chars : str)
  (m : nat -> (nat -> option nat) -> option nat) : Prop :=
  forall i k e,
    i <= length text -> m i k = Some e ->
    exists j,
      i <= j /\ j <= length text /\ k j = Some e
      /\ Forall (fun c => In c chars) (slice text i j).

(** The characters of a chord match. *)
Definition MATCH_ALPHABET : str :=
  lit "ABCDEFGHabcdefgh#mjinsuda0123456789/+-".

(** The degree that a scale gives a symbol: the position, counted from
    [idx], of the first chord that normalises to it. *)
Fixpoint first_degree (chords : list str) (idx : Z) (k : str) : option Z :=
  match chords with
  | [] => None
  | chord :: chords' =>
      match normalize_chord_symbol chord with
      | Some (c :: n) =>
          if str_eqb k (c :: n) then Some idx
          else first_degree chords' (idx + 1)%Z k
      | _ => first_degree chords' (idx + 1)%Z k
      end
  end.

Definition Tonality_eq_dec : forall a b : Tonality, {a = b} + {a <> b}.
Proof.
  decide equality;
    try apply str_eq_dec;
    apply (list_eq_dec
             (fun p q : str * Z =>
                match str_eq_dec (fst p) (fst q), Z.eq_dec (snd p) (snd q) with
                | left Hk, left Hv =>
                    left
                      (eq_trans (surjective_pairing p)
                         (eq_trans (f_equal2 pair Hk Hv)
                            (eq_sym (surjective_pairing q))))
                | right Hk, _ => right (fun E => Hk (f_equal fst E))
                | _, right Hv => right (fun E => Hv (f_equal snd E))
                end)).
Defined.

Definition tonality_eqb (a b : Tonality) : bool :=
  if Tonality_eq_dec a b then true else false.

(** The computation of [main] between reading the text and writing the
    result: the chords of the text, the tonality, the annotated text. *)
Definition annotate_input (key_arg mode_arg : option str) (text : str)
  : result str :=
  let chords := extract_chords text in
  match select_tonality key_arg mode_arg chords with
  | Raise e => Raise e
  | Ok tonality => Ok (annotate_text text (chord_map tonality))
  end.

(** The note letters other than the German H. *)
Definition LETTERS_A_TO_G : str := lit "ABCDEFGabcdefg".

(** ** The selection as the specification words it *)

(** A chord is present in a chord map: it is one of its keys. *)
Definition present (m : dict str Z) (chord : str) : bool :=
  if in_dec str_eq_dec chord (map fst m) then true else false.

(** The number of places of a sequence that hold a chord with [p]. *)
Fixpoint count_chords (p : str -> bool) (chords : list str) : nat :=
  match chords with
  | [] => 0
  | chord :: rest => (if p chord then 1 else 0) + count_chords p rest
  end.

(** totalHits: the chords, with repetition, present in the chord map. *)
Definition spec_total_hits (m : dict str Z) (chords : list str) : nat :=
  count_chords (present m) chords.

(** uniqueChordHits: the distinct chords present, counted as the keys of
    the chord map that occur in the sequence. *)
Definition spec_unique_hits (m : dict str Z) (chords : list str) : nat :=
  length
    (filter (fun k => if in_dec str_eq_dec k chords then true else false)
       (nodup str_eq_dec (map fst m))).

(** The chord map holds the pair of a chord and a degree. *)
Definition mapped_to (m : dict str Z) (chord : str) (degree : Z) : bool :=
  existsb (fun kv => str_eqb (fst kv) chord && Z.eqb (snd kv) degree) m.

(** tonicHits: the chords, with repetition, whose mapped degree is 1. *)
Definition spec_tonic_hits (m : dict str Z) (chords : list str) : nat :=
  count_chords (fun chord => mapped_to m chord 1%Z) chords.

Definition spec_score (m : dict str Z) (chords : list str) : nat * nat * nat :=
  (spec_total_hits m chords, spec_unique_hits m chords, spec_tonic_hits m chords).

(** The lexicographic order on score triples. *)
Definition lex_lt (a b : nat * nat * nat) : Prop :=
  fst (fst a) < fst (fst b)
  \/ (fst (fst a) = fst (fst b)
      /\ (snd (fst a) < snd (fst b)
          \/ (snd (fst a) = snd (fst b) /\ snd a < snd b))).

(** The allowed modes: both, unless a mode is given; a given mode is read
    in lower case. *)
Definition spec_mode_allowed (mode_arg : option str) (t : Tonality) : Prop :=
  match mode_arg with
  | Some (c :: m) => mode t = lower (c :: m)
  | _ => mode t = lit "major" \/ mode t = lit "minor"
  end.

(** A tonality is scored: its mode is allowed and its chord map holds a
    chord of the sequence. *)
Definition spec_candidate (mode_arg : option str) (chords : list str)
  (t : Tonality) : Prop :=
  spec_mode_allowed mode_arg t
  /\ exists chord, In chord chords /\ In chord (map fst (chord_map t)).

(** [w] is the scored tonality of greatest score, the first of the
    catalogue among equals. *)
Definition spec_winner (mode_arg : option str) (chords : list str)
  (w : Tonality) : Prop :=
  exists before after,
    TONALITIES = before ++ w :: after
    /\ spec_candidate mode_arg chords w
    /\ (forall t, In t before -> spec_candidate mode_arg chords t ->
          lex_lt (spec_score (chord_map t) chords)
            (spec_score (chord_map w) chords))
    /\ (forall t, In t after -> spec_candidate mode_arg chords t ->
          ~ lex_lt (spec_score (chord_map w) chords)
              (spec_score (chord_map t) chords)).

(** The mode of an explicit key: major unless a mode is given; a given mode
    is read in lower case. *)
Definition spec_requested_mode (mode_arg : option str) : str :=
  match mode_arg with
  | Some (c :: m) => lower (c :: m)
  | _ => lit "major"
  end.

(** ** Vocabulary of a second run *)

(** A chord map of the specification: every degree is one of 1 to 7. *)
Definition is_chord_map (m : dict str Z) : Prop :=
  Forall (fun kv => (1 <= snd kv <= 7)%Z) m.

(** Where the strings of [ins] stand in the text that [splice] builds: each
    index moved right by [shift] and by the lengths of the strings put in
    before it. *)
Fixpoint landings (shift : nat) (ins : list (nat * str)) : list (nat * str) :=
  match ins with
  | [] => []
  | (e, s) :: ins' => (e + shift, s) :: landings (shift + length s) ins'
  end.

(** [ins] holds the annotations of a run on [text]: at the end of each
    match that the run annotates, the string put after the chord. *)
Definition annotations_of_run (text : str) (chord_map : dict str Z)
  (ins : list (nat * str)) : Prop :=
  ascending 0 (length text) ins
  /\ annotate_text text chord_map = splice text 0 ins
  /\ forall stop s,
       In (stop, s) ins
       <-> s <> []
           /\ exists start,
                In (start, stop) (finditer CHORD_REGEX text)
                /\ annotate_match text chord_map start stop
                   = slice text start stop ++ s.

(** The annotations [ins] of a first run stand in its output where a second
    run sees a degree: each is a degree annotation, stands at its landing
    index, is recognised there, and the second run, with annotations
    [ins2], emits a match that ends there as it stands and puts nothing
    there. *)
Definition annotations_recognised (text : str) (chord_map : dict str Z)
  (ins ins2 : list (nat * str)) : Prop :=
  forall q s,
    In (q, s) (landings 0 ins) ->
    is_annotation s = true
    /\ firstn (length s) (skipn q (annotate_text text chord_map)) = s
    /\ degree_follows (annotate_text text chord_map) q
    /\ _already_has_degree (annotate_text text chord_map) q = true
    /\ (forall start,
          annotate_match (annotate_text text chord_map) chord_map start q
          = slice (annotate_text text chord_map) start q)
    /\ ~ In q (map fst ins2).


(** ** The catalogue *)

(** C10: the catalogue has 18 tonalities, 12 major and 6 minor, one per
    entry of the scale tables in table order; every chord map has 7 distinct
    canonical chord symbols, with the degrees 1 to 7 once each. *)
Theorem build_tonalities_catalog :
  length TONALITIES = 18
  /\ length (filter (fun t => str_eqb (mode t) (lit "major")) TONALITIES) = 12
  /\ length (filter (fun t => str_eqb (mode t) (lit "minor")) TONALITIES) = 6
  /\ map label TONALITIES = map fst MAJOR_SCALES ++ map fst MINOR_SCALES
  /\ forall t, In t TONALITIES ->
       length (chord_map t) = 7
       /\ NoDup (map fst (chord_map t))
       /\ (forall chord, In chord (map fst (chord_map t)) ->
             is_canonical chord = true)
       /\ map snd (chord_map t) = DEGREES.
Proof.
  split; [vm_compute; reflexivity|].
  split; [vm_compute; reflexivity|].
  split; [vm_compute; reflexivity|].
  split; [vm_compute; reflexivity|].
  assert (H : forallb well_formed_tonality TONALITIES = true)
    by (vm_compute; reflexivity).
  rewrite forallb_forall in H.
  intros t Ht. specialize (H t Ht).
  unfold well_formed_tonality in H.
  repeat rewrite andb_true_iff in H.
  destruct H as [[[Hlen Hnodup] Hcanon] Hdeg].
  split; [now apply Nat.eqb_eq|].
  split.
  - destruct (list_eq_dec str_eq_dec _ _) as [E|]; [|discriminate].
    rewrite <- E. apply NoDup_nodup.
  - split.
    + now rewrite forallb_forall in Hcanon.
    + now destruct (list_eq_dec Z.eq_dec _ _).
Qed.

(** ** Normalisation *)

(** C8: enharmonic and notational variants share one spelling. *)
Theorem normalize_enharmonic :
  normalize_chord_symbol (lit "Db") = Some (lit "C#")
  /\ normalize_chord_symbol (lit "C#") = Some (lit "C#")
  /\ normalize_chord_symbol (lit "Hm") = Some (lit "Bm")
  /\ normalize_chord_symbol (lit "E#") = Some (lit "F").
Proof. repeat split; vm_compute; reflexivity. Qed.

Lemma char_in_In (c : ascii) (chars : str) :
  char_in c chars = true -> In c chars.
Proof.
  unfold char_in. rewrite existsb_exists.
  intros [x [Hin Heq]]. apply Ascii.eqb_eq in Heq. now subst.
Qed.

Lemma str_eqb_eq (a b : str) : str_eqb a b = true <-> a = b.
Proof.
  unfold str_eqb. destruct (str_eq_dec a b); split; congruence.
Qed.

Lemma str_mem_In (s : str) (l : list str) : str_mem s l = true <-> In s l.
Proof.
  unfold str_mem. rewrite existsb_exists. split.
  - intros [x [Hin Heq]]. apply str_eqb_eq in Heq. now subst.
  - intros Hin. exists s. split; [assumption|now apply str_eqb_eq].
Qed.

Lemma CHORD_TOKEN_match_groups (base g1 g2 tail : str) :
  CHORD_TOKEN_match base = Some (g1, g2, tail) ->
  exists c, g1 = [c] /\ In c NOTE_LETTERS /\ In g2 [[]; lit "#"; lit "b"].
Proof.
  unfold CHORD_TOKEN_match.
  destruct base as [|c rest]; [discriminate|].
  destruct (char_in c NOTE_LETTERS) eqn:Hc; [|discriminate].
  apply char_in_In in Hc.
  destruct rest as [|a rest'].
  - intros H. inversion H. exists c. simpl. auto.
  - destruct (char_in a (lit "#b")) eqn:Ha.
    + destruct (match_tail rest'); [|discriminate].
      intros H. inversion H. exists c.
      apply char_in_In in Ha. simpl in Ha.
      split; [reflexivity|]. split; [assumption|].
      simpl. destruct Ha as [<-|[<-|[]]]; auto.
    + destruct (match_tail (a :: rest')); [|discriminate].
      intros H. inversion H. exists c. simpl. auto.
Qed.

Lemma quality_of_cases (tail : str) :
  In (quality_of tail) [[]; lit "m"].
Proof.
  unfold quality_of.
  destruct (startswith (lower tail) (lit "maj")); [simpl; auto|].
  destruct (startswith (lower tail) (lit "min")); [simpl; auto|].
  destruct (startswith (lower tail) (lit "m") && negb false); simpl; auto.
Qed.

(** Every result of [normalize_chord_symbol] is one of [NORMAL_FORMS]. *)
Lemma normalize_in_normal_forms (symbol y : str) :
  normalize_chord_symbol symbol = Some y -> In y NORMAL_FORMS.
Proof.
  unfold normalize_chord_symbol.
  destruct (strip symbol) as [|c0 cleaned]; [discriminate|].
  destruct (CHORD_TOKEN_match _) as [[[g1 g2] tail]|] eqn:Hm; [|discriminate].
  intros H. inversion H; subst y; clear H.
  apply CHORD_TOKEN_match_groups in Hm.
  destruct Hm as [c [-> [Hc Hg2]]].
  unfold NORMAL_FORMS.
  apply in_flat_map. exists c. split; [assumption|].
  apply in_flat_map. exists g2. split; [assumption|].
  apply in_map_iff. exists (quality_of tail).
  split; [reflexivity|apply quality_of_cases].
Qed.

(** Apart from an [H] with an accidental, every result is canonical. *)
Lemma normalize_canonical_or_leak (symbol y : str) :
  normalize_chord_symbol symbol = Some y ->
  is_canonical y = true \/ In y H_LEAKS.
Proof.
  intros H. apply normalize_in_normal_forms in H.
  assert (A : forallb (fun y => is_canonical y || str_mem y H_LEAKS)
                NORMAL_FORMS = true) by (vm_compute; reflexivity).
  rewrite forallb_forall in A. specialize (A y H).
  apply orb_true_iff in A. destruct A as [A|A]; [now left|right].
  now apply str_mem_In.
Qed.

(** Apart from [H] with a flat, every result is a fixed point. *)
Lemma normalize_fixed_point_or_leak (symbol y : str) :
  normalize_chord_symbol symbol = Some y ->
  normalize_chord_symbol y = Some y \/ In y (map lit ["HB"; "HBm"]).
Proof.
  intros H. apply normalize_in_normal_forms in H.
  assert (A : forallb
                (fun y =>
                   match normalize_chord_symbol y with
                   | Some z => str_eqb z y
                   | None => false
                   end || str_mem y (map lit ["HB"; "HBm"]))
                NORMAL_FORMS = true) by (vm_compute; reflexivity).
  rewrite forallb_forall in A. specialize (A y H).
  apply orb_true_iff in A. destruct A as [A|A].
  - left. destruct (normalize_chord_symbol y); [|discriminate].
    apply str_eqb_eq in A. now subst.
  - right. now apply str_mem_In.
Qed.

(** C5: on the token [H#] normalisation succeeds with [H#], which is not
    one of the twelve roots, with or without [m]: the German [H] has not
    been folded. *)
Theorem normalize_H_sharp_not_canonical :
  normalize_chord_symbol (lit "H#") = Some (lit "H#")
  /\ is_canonical (lit "H#") = false.
Proof. split; vm_compute; reflexivity. Qed.

(** C7: on the token [Hb] normalisation gives [HB], and normalising [HB]
    gives [B]: the first result is not a fixed point. *)
Theorem normalize_H_flat_not_idempotent :
  normalize_chord_symbol (lit "Hb") = Some (lit "HB")
  /\ normalize_chord_symbol (lit "HB") = Some (lit "B")
  /\ lit "B" <> lit "HB".
Proof. repeat split; try (vm_compute; reflexivity). discriminate. Qed.

(** ** Slices *)

Lemma firstn_plus (A : Type) (n m : nat) (l : list A) :
  firstn (n + m) l = firstn n l ++ firstn m (skipn n l).
Proof.
  revert l. induction n as [|n IH]; intros l; [reflexivity|].
  destruct l as [|x l]; simpl.
  - now rewrite firstn_nil.
  - now rewrite IH.
Qed.

Lemma slice_split (text : str) (a b c : nat) :
  a <= b -> b <= c -> slice text a c = slice text a b ++ slice text b c.
Proof.
  intros Hab Hbc. unfold slice.
  replace (c - a) with ((b - a) + (c - b)) by lia.
  rewrite firstn_plus, skipn_skipn.
  now replace (b - a + a) with b by lia.
Qed.

Lemma slice_skipn (text : str) (a b : nat) :
  a <= b -> slice text a b ++ skipn b text = skipn a text.
Proof.
  intros Hab. unfold slice.
  replace (skipn b text) with (skipn (b - a) (skipn a text)).
  - apply firstn_skipn.
  - rewrite skipn_skipn. now replace (b - a + a) with b by lia.
Qed.

Lemma slice_length (text : str) (a b : nat) :
  a <= b -> b <= length text -> length (slice text a b) = b - a.
Proof.
  intros Hab Hb. unfold slice.
  rewrite length_firstn, length_skipn. lia.
Qed.

Lemma startswith_length (s prefix : str) :
  startswith s prefix = true -> length prefix <= length s.
Proof.
  revert s. induction prefix as [|p prefix IH]; intros s; [simpl; lia|].
  destruct s as [|c s]; simpl; [discriminate|].
  rewrite andb_true_iff. intros [_ H]. apply IH in H. simpl. lia.
Qed.

(** ** The matcher stays inside the text *)

Section Reach.
Variable text : str.

Lemma iterate_reaches (body : nat -> (nat -> option nat) -> option nat)
  (k : nat -> option nat) (fuel : nat) :
  reaches text body ->
  forall i e,
    i <= length text -> iterate body k fuel i = Some e ->
    exists j, i <= j /\ j <= length text /\ k j = Some e.
Proof.
  intros Hbody. induction fuel as [|fuel IH]; intros i e Hi; simpl.
  - intros H. exists i. auto.
  - destruct (body i _) as [e'|] eqn:E.
    + intros H. inversion H; subst e'; clear H.
      apply Hbody in E; [|assumption].
      destruct E as [j [Hij [Hj Hk]]].
      destruct (i <? j); [|discriminate].
      apply IH in Hk; [|assumption].
      destruct Hk as [j' [Hjj' [Hj' Hk]]].
      exists j'. repeat split; [lia|assumption|assumption].
    + intros H. exists i. auto.
Qed.

Lemma rx_reaches (r : regex) : reaches text (rx r text).
Proof.
  induction r as [chars|s|r1 IH1 r2 IH2|r1 IH1 r2 IH2|r1 IH1|r1 IH1| |r1 IH1];
    intros i k e Hi; cbn [rx].
  - unfold char_at. destruct (nth_error text i) as [c|] eqn:E; [|discriminate].
    destruct (char_in c chars); [|discriminate].
    intros H. exists (S i).
    assert (i < length text) by (apply nth_error_Some; congruence).
    repeat split; [lia|lia|assumption].
  - destruct (startswith (skipn i text) s) eqn:E; [|discriminate].
    apply startswith_length in E. rewrite length_skipn in E.
    intros H. exists (i + length s). repeat split; [lia|lia|assumption].
  - intros H. apply IH1 in H; [|assumption].
    destruct H as [j [Hij [Hj H]]].
    apply IH2 in H; [|assumption].
    destruct H as [j' [Hjj' [Hj' H]]].
    exists j'. repeat split; [lia|assumption|assumption].
  - destruct (rx r1 text i k) as [e'|] eqn:E.
    + intros H. inversion H; subst e'. now apply IH1.
    + now apply IH2.
  - destruct (rx r1 text i k) as [e'|] eqn:E.
    + intros H. inversion H; subst e'. now apply IH1.
    + intros H. exists i. auto.
  - now apply iterate_reaches.
  - destruct (word_boundary text i); [|discriminate].
    intros H. exists i. auto.
  - destruct (rx r1 text i _); [discriminate|].
    intros H. exists i. auto.
Qed.

Lemma iterate_respects (body : nat -> (nat -> option nat) -> option nat)
  (fuel : nat) :
  respects text body ->
  forall i k k',
    i <= length text ->
    (forall j, i <= j -> j <= length text -> k j = k' j) ->
    iterate body k fuel i = iterate body k' fuel i.
Proof.
  intros Hbody. induction fuel as [|fuel IH]; intros i k k' Hi Hk; simpl.
  - apply Hk; lia.
  - rewrite (Hk i) by lia.
    rewrite (Hbody i _ (fun j => if i <? j then iterate body k' fuel j else None));
      [reflexivity|assumption|].
    intros j Hij Hj. destruct (i <? j); [|reflexivity].
    apply IH; [assumption|]. intros j' Hjj' Hj'. apply Hk; lia.
Qed.

Lemma rx_respects (r : regex) : respects text (rx r text).
Proof.
  induction r as [chars|s|r1 IH1 r2 IH2|r1 IH1 r2 IH2|r1 IH1|r1 IH1| |r1 IH1];
    intros i k k' Hi Hk; cbn [rx].
  - unfold char_at. destruct (nth_error text i) as [c|] eqn:E; [|reflexivity].
    assert (i < length text) by (apply nth_error_Some; congruence).
    destruct (char_in c chars); [|reflexivity]. apply Hk; lia.
  - destruct (startswith (skipn i text) s) eqn:E; [|reflexivity].
    apply startswith_length in E. rewrite length_skipn in E.
    apply Hk; lia.
  - apply IH1; [assumption|]. intros j Hij Hj.
    apply IH2; [assumption|]. intros j' Hjj' Hj'. apply Hk; lia.
  - now rewrite (IH1 i k k' Hi Hk), (IH2 i k k' Hi Hk).
  - rewrite (IH1 i k k' Hi Hk), (Hk i); [reflexivity|lia|assumption].
  - now apply iterate_respects.
  - rewrite (Hk i); [reflexivity|lia|assumption].
  - rewrite (Hk i); [reflexivity|lia|assumption].
Qed.

(** The fuel of a star is enough: any amount above the length left gives
    the same run. *)
Lemma iterate_fuel (r : regex) (k : nat -> option nat) (fuel fuel' i : nat) :
  i <= length text ->
  length text - i < fuel -> length text - i < fuel' ->
  iterate (rx r text) k fuel i = iterate (rx r text) k fuel' i.
Proof.
  revert fuel' i. induction fuel as [|fuel IH]; intros fuel' i Hi Hf Hf';
    [lia|].
  destruct fuel' as [|fuel']; [lia|]. simpl.
  rewrite (rx_respects r i _
             (fun j => if i <? j then iterate (rx r text) k fuel' j else None));
    [reflexivity|assumption|].
  intros j Hij Hj. destruct (i <? j) eqn:E; [|reflexivity].
  apply Nat.ltb_lt in E. apply IH; lia.
Qed.

(** A consuming expression calls its continuation beyond its start only,
    so the test for an empty iteration in [iterate] never fires on it. *)
Lemma consuming_beyond (r : regex) :
  consuming r = true ->
  forall i k, i <= length text -> rx r text i k = rx r text i (beyond i k).
Proof.
  induction r as [chars|s|r1 IH1 r2 IH2|r1 IH1 r2 IH2|r1 IH1|r1 IH1| |r1 IH1];
    cbn [consuming]; try discriminate; intros Hc i k Hi; cbn [rx].
  - destruct (char_at text i) as [c|]; [|reflexivity].
    destruct (char_in c chars); [|reflexivity].
    unfold beyond. now rewrite (proj2 (Nat.ltb_lt i (S i)) (Nat.lt_succ_diag_r i)).
  - destruct (startswith (skipn i text) s); [|reflexivity].
    apply negb_true_iff, Nat.eqb_neq in Hc.
    unfold beyond.
    assert (Hlt : (i <? i + length s) = true) by (apply Nat.ltb_lt; lia).
    now rewrite Hlt.
  - apply orb_true_iff in Hc. destruct Hc as [Hc|Hc].
    + rewrite (IH1 Hc i (fun j => rx r2 text j k) Hi).
      rewrite (IH1 Hc i (fun j => rx r2 text j (beyond i k)) Hi).
      apply rx_respects; [assumption|].
      intros j Hij Hj. cbv [beyond].
      destruct (i <? j) eqn:E; [|reflexivity].
      apply Nat.ltb_lt in E.
      apply rx_respects; [assumption|].
      intros j' Hjj' Hj'.
      assert (Hlt : (i <? j') = true) by (apply Nat.ltb_lt; lia).
      now rewrite Hlt.
    + apply rx_respects; [assumption|].
      intros j Hij Hj.
      rewrite (IH2 Hc j k Hj), (IH2 Hc j (beyond i k) Hj).
      apply rx_respects; [assumption|].
      intros j' Hjj' Hj'. cbv [beyond].
      destruct (j <? j') eqn:E; [|reflexivity].
      apply Nat.ltb_lt in E.
      assert (Hlt : (i <? j') = true) by (apply Nat.ltb_lt; lia).
      now rewrite Hlt.
  - apply andb_true_iff in Hc. destruct Hc as [Hc1 Hc2].
    now rewrite <- (IH1 Hc1 i k Hi), <- (IH2 Hc2 i k Hi).
Qed.

(** The fuel of a scan is enough. *)
Lemma scan_fuel (r : regex) (fuel fuel' pos : nat) :
  length text < pos + fuel -> length text < pos + fuel' ->
  scan r text fuel pos = scan r text fuel' pos.
Proof.
  revert fuel' pos. induction fuel as [|fuel IH]; intros fuel' pos Hf Hf'.
  - assert (Hp : (length text <? pos) = true) by (apply Nat.ltb_lt; lia).
    destruct fuel'; simpl; [reflexivity|now rewrite Hp].
  - simpl. destruct (length text <? pos) eqn:Hp.
    + destruct fuel'; simpl; [reflexivity|now rewrite Hp].
    + apply Nat.ltb_ge in Hp.
      destruct fuel' as [|fuel']; [lia|]. simpl.
      assert (Hp' : (length text <? pos) = false) by (apply Nat.ltb_ge; lia).
      rewrite Hp'.
      destruct (match_at r text pos) as [e|].
      * f_equal. destruct (pos <? e) eqn:E.
        -- apply Nat.ltb_lt in E. apply IH; lia.
        -- apply IH; lia.
      * apply IH; lia.
Qed.

(** A match of [CHORD_REGEX] starts on a note letter, is not empty and
    ends inside the text. *)
Lemma chord_match_bounds (pos e : nat) :
  match_at CHORD_REGEX text pos = Some e ->
  pos < e /\ e <= length text
  /\ exists c, char_at text pos = Some c /\ In c NOTE_LETTERS.
Proof.
  unfold match_at, CHORD_REGEX.
  cbn [rx].
  destruct (word_boundary text pos); [|discriminate].
  destruct (char_at text pos) as [c|] eqn:Ec; [|discriminate].
  destruct (char_in c NOTE_LETTERS) eqn:Hc; [|discriminate].
  intros H.
  assert (Hpos : pos < length text)
    by (apply nth_error_Some; unfold char_at in Ec; congruence).
  change (rx (Seq (Seq (Opt (Class (lit "#b"))) (Opt (Star CHORD_FRAGMENT)))
                  (NotAhead (Class LOWERCASE)))
             text (S pos) (fun e => Some e) = Some e) in H.
  apply rx_reaches in H; [|lia].
  destruct H as [j [Hj [Hlen H]]]. inversion H; subst j.
  repeat split; [lia|assumption|].
  exists c. split; [reflexivity|now apply char_in_In].
Qed.

Lemma chained_weaken (last last' n : nat) (spans : list (nat * nat)) :
  last' <= last -> chained last n spans -> chained last' n spans.
Proof.
  destruct spans as [|[s e] spans]; simpl; [auto|].
  intros Hl [H1 H2]. split; [lia|assumption].
Qed.

Lemma scan_chained (fuel pos : nat) :
  chained pos (length text) (scan CHORD_REGEX text fuel pos).
Proof.
  revert pos. induction fuel as [|fuel IH]; intros pos; simpl; [exact I|].
  destruct (length text <? pos) eqn:Hp; [exact I|].
  destruct (match_at CHORD_REGEX text pos) as [e|] eqn:E.
  - apply chord_match_bounds in E. destruct E as [Hlt [Hle _]].
    assert (Hc : (pos <? e) = true) by (apply Nat.ltb_lt; assumption).
    rewrite Hc. simpl. repeat split; [lia|assumption|assumption|apply IH].
  - apply chained_weaken with (last := S pos); [lia|apply IH].
Qed.

Lemma scan_In (r : regex) (fuel pos s e : nat) :
  In (s, e) (scan r text fuel pos) -> match_at r text s = Some e.
Proof.
  revert pos. induction fuel as [|fuel IH]; intros pos; simpl; [tauto|].
  destruct (length text <? pos); [simpl; tauto|].
  destruct (match_at r text pos) as [e'|] eqn:E.
  - intros [H|H].
    + inversion H; subst. assumption.
    + now apply IH in H.
  - apply IH.
Qed.

End Reach.

(** The one starred expression of the program is consuming. *)
Lemma CHORD_FRAGMENT_consuming : consuming CHORD_FRAGMENT = true.
Proof. reflexivity. Qed.

Lemma finditer_chained (text : str) :
  chained 0 (length text) (finditer CHORD_REGEX text).
Proof. apply scan_chained. Qed.

(** Every span of [finditer] is a match of [CHORD_REGEX]: a note letter
    first, not empty, inside the text. *)
Lemma finditer_match (text : str) (s e : nat) :
  In (s, e) (finditer CHORD_REGEX text) ->
  s < e /\ e <= length text
  /\ exists c, char_at text s = Some c /\ In c NOTE_LETTERS.
Proof.
  intros H. apply scan_In in H. now apply chord_match_bounds.
Qed.

(** ** The pieces of annotate_text *)

(** A match is emitted as it stands, or followed by the degree that the
    chord map gives its normal form. *)
Lemma annotate_match_cases (text : str) (chord_map : dict str Z) (s e : nat) :
  annotate_match text chord_map s e = slice text s e
  \/ exists normalized degree,
       normalize_chord_symbol (slice text s e) = Some normalized
       /\ dict_get str_eqb chord_map normalized = Some degree
       /\ degree <> 0%Z
       /\ followed_by_lowercase text e = false
       /\ lone_letter_is_article text (slice text s e) e = false
       /\ _already_has_degree text e = false
       /\ annotate_match text chord_map s e
          = slice text s e ++ lit " (" ++ str_of_int degree ++ lit ")".
Proof.
  unfold annotate_match.
  destruct (followed_by_lowercase text e); [now left|].
  destruct (lone_letter_is_article text (slice text s e) e); [now left|].
  destruct (_already_has_degree text e); [now left|].
  destruct (normalize_chord_symbol (slice text s e)) as [[|c n]|] eqn:En;
    [now left| |now left].
  destruct (dict_get str_eqb chord_map (c :: n)) as [d|] eqn:Ed; [|now left].
  destruct (Z.eqb d 0) eqn:Ez; [now left|].
  right. exists (c :: n), d. apply Z.eqb_neq in Ez.
  repeat split; auto.
Qed.

Lemma skipn_length_app (A : Type) (l l' : list A) :
  skipn (length l) (l ++ l') = l'.
Proof. induction l; simpl; auto. Qed.

Lemma annotate_match_suffix (text : str) (chord_map : dict str Z) (s e : nat) :
  s <= e -> e <= length text ->
  annotate_match text chord_map s e
  = slice text s e ++ annotation_suffix text chord_map s e.
Proof.
  intros Hse He. unfold annotation_suffix.
  pose proof (slice_length text s e Hse He) as Hlen.
  destruct (annotate_match_cases text chord_map s e)
    as [H|[n [d [_ [_ [_ [_ [_ [_ H]]]]]]]]]; rewrite H.
  - rewrite <- Hlen, skipn_all. now rewrite app_nil_r.
  - rewrite <- Hlen. now rewrite skipn_length_app.
Qed.

Lemma splice_shift (text : str) (n last e : nat) (ins : list (nat * str)) :
  last <= e -> ascending e n ins ->
  splice text last ins = slice text last e ++ splice text e ins.
Proof.
  intros Hle Hasc. destruct ins as [|[e1 s1] ins]; simpl.
  - symmetry. now apply slice_skipn.
  - simpl in Hasc. destruct Hasc as [H1 _].
    rewrite (slice_split text last e e1) by lia.
    now rewrite <- app_assoc.
Qed.

Lemma ascending_weaken (last last' n : nat) (ins : list (nat * str)) :
  last' <= last -> ascending last n ins -> ascending last' n ins.
Proof.
  destruct ins as [|[e s] ins]; simpl; [auto|].
  intros Hl [H1 H2]. split; [lia|assumption].
Qed.

Lemma insertions_ascending (text : str) (chord_map : dict str Z)
  (spans : list (nat * nat)) (last : nat) :
  chained last (length text) spans ->
  ascending last (length text) (insertions text chord_map spans).
Proof.
  revert last. induction spans as [|[s e] spans IH]; intros last; simpl;
    [auto|].
  intros [H1 [H2 [H3 H4]]]. specialize (IH e H4).
  destruct (annotation_suffix text chord_map s e).
  - apply ascending_weaken with (last := e); [lia|assumption].
  - simpl. repeat split; [lia|assumption|assumption].
Qed.

(** The output is the text with the insertions put in. *)
Lemma annotate_pieces_splice (text : str) (chord_map : dict str Z)
  (spans : list (nat * nat)) (last : nat) :
  chained last (length text) spans ->
  concat (annotate_pieces text chord_map spans last)
  = splice text last (insertions text chord_map spans).
Proof.
  revert last. induction spans as [|[s e] spans IH]; intros last; simpl.
  - intros _. apply app_nil_r.
  - intros [H1 [H2 [H3 H4]]].
    rewrite (IH e H4).
    rewrite (annotate_match_suffix text chord_map s e) by lia.
    pose proof (insertions_ascending text chord_map spans e H4) as Hasc.
    destruct (annotation_suffix text chord_map s e) as [|c suffix].
    + rewrite app_nil_r.
      rewrite (splice_shift text (length text) last e) by (lia || assumption).
      rewrite (slice_split text last s e) by lia.
      now rewrite <- app_assoc.
    + simpl splice.
      rewrite (slice_split text last s e) by lia.
      now rewrite <- !app_assoc.
Qed.

(** With nothing put in, the text comes back. *)
Lemma splice_erase (text : str) (ins : list (nat * str)) (last : nat) :
  ascending last (length text) ins ->
  splice text last (erase ins) = skipn last text.
Proof.
  revert last. induction ins as [|[e s] ins IH]; intros last; simpl; [auto|].
  intros [H1 [H2 H3]]. rewrite (IH e H3). apply slice_skipn. lia.
Qed.

(** ** Degrees in decimal *)

Lemma string_of_uint_digits (u : Decimal.uint) :
  forallb (fun c => char_in c DIGITS) (lit (NilEmpty.string_of_uint u)) = true.
Proof.
  induction u; simpl; try reflexivity; assumption.
Qed.

Lemma str_of_int_positive (p : positive) :
  str_of_int (Zpos p) <> []
  /\ forallb (fun c => char_in c DIGITS) (str_of_int (Zpos p)) = true.
Proof.
  unfold str_of_int. simpl Z.to_int. simpl NilZero.string_of_int.
  pose proof (DecimalPos.Unsigned.to_uint_nonnil p) as Hn.
  unfold NilZero.string_of_uint.
  destruct (Pos.to_uint p) eqn:E; try congruence;
    rewrite <- E; (split; [rewrite E; simpl; discriminate|]);
    apply string_of_uint_digits.
Qed.

Lemma takewhile_app (p : ascii -> bool) (ds : str) (c : ascii) (rest : str) :
  forallb p ds = true -> p c = false ->
  takewhile p (ds ++ c :: rest) = ds
  /\ dropwhile p (ds ++ c :: rest) = c :: rest.
Proof.
  intros Hds Hc. induction ds as [|d ds IH]; simpl.
  - now rewrite Hc.
  - simpl in Hds. apply andb_true_iff in Hds. destruct Hds as [Hd Hds].
    rewrite Hd. destruct (IH Hds) as [-> ->]. auto.
Qed.

Lemma is_annotation_digits (ds : str) :
  ds <> [] -> forallb (fun c => char_in c DIGITS) ds = true ->
  is_annotation (lit " (" ++ ds ++ lit ")") = true.
Proof.
  intros Hne Hds. unfold is_annotation.
  change (lit " (" ++ ds ++ lit ")")
    with (" "%char :: "("%char :: ds ++ [")"%char]).
  cbv beta iota.
  destruct (takewhile_app (fun c => char_in c DIGITS) ds ")"%char [] Hds eq_refl)
    as [-> ->].
  destruct ds; [congruence|reflexivity].
Qed.

(** ** annotate_text keeps the text *)

Lemma dict_get_In (K V : Type) (eqb : K -> K -> bool) (d : dict K V)
  (k : K) (v : V) :
  dict_get eqb d k = Some v -> exists k', In (k', v) d /\ eqb k k' = true.
Proof.
  induction d as [|[k' v'] d IH]; simpl; [discriminate|].
  destruct (eqb k k') eqn:E.
  - intros H. inversion H; subst. exists k'. auto.
  - intros H. destruct (IH H) as [k'' [Hin Heq]]. exists k''. auto.
Qed.

Lemma annotation_suffix_cases (text : str) (chord_map : dict str Z) (s e : nat) :
  s <= e -> e <= length text ->
  annotation_suffix text chord_map s e = []
  \/ exists normalized degree,
       dict_get str_eqb chord_map normalized = Some degree
       /\ degree <> 0%Z
       /\ annotation_suffix text chord_map s e
          = lit " (" ++ str_of_int degree ++ lit ")".
Proof.
  intros Hse He. unfold annotation_suffix.
  pose proof (slice_length text s e Hse He) as Hlen.
  destruct (annotate_match_cases text chord_map s e)
    as [H|[n [d [_ [Hd [Hz [_ [_ [_ H]]]]]]]]]; rewrite H.
  - left. rewrite <- Hlen. apply skipn_all.
  - right. exists n, d. repeat split; try assumption.
    rewrite <- Hlen. apply skipn_length_app.
Qed.

Lemma insertions_annotations (text : str) (chord_map : dict str Z)
  (spans : list (nat * nat)) :
  (forall chord degree,
      dict_get str_eqb chord_map chord = Some degree -> (0 <= degree)%Z) ->
  incl spans (finditer CHORD_REGEX text) ->
  Forall
    (fun p =>
       is_annotation (snd p) = true
       /\ exists start, In (start, fst p) (finditer CHORD_REGEX text))
    (insertions text chord_map spans).
Proof.
  intros Hpos. induction spans as [|[s e] spans IH]; intros Hincl; simpl;
    [constructor|].
  assert (Hin : In (s, e) (finditer CHORD_REGEX text))
    by (apply Hincl; now left).
  assert (Hrest : incl spans (finditer CHORD_REGEX text))
    by (intros x Hx; apply Hincl; now right).
  specialize (IH Hrest).
  destruct (finditer_match text s e Hin) as [Hse [He _]].
  destruct (annotation_suffix_cases text chord_map s e) as [H|H];
    [lia|assumption| |].
  - now rewrite H.
  - destruct H as [n [d [Hd [Hz H]]]].
    destruct (annotation_suffix text chord_map s e) as [|c suffix] eqn:E;
      [assumption|].
    constructor; [|assumption].
    cbn [snd fst]. split; [|now exists s].
    rewrite H. specialize (Hpos n d Hd).
    destruct d as [|q|q]; [congruence| |lia].
    destruct (str_of_int_positive q) as [Hne Hds].
    now apply is_annotation_digits.
Qed.

Lemma chord_map_degree (chord_map : dict str Z) (chord : str) (degree : Z) :
  is_chord_map chord_map ->
  dict_get str_eqb chord_map chord = Some degree ->
  (1 <= degree <= 7)%Z.
Proof.
  intros Hm Hd. apply dict_get_In in Hd. destruct Hd as [k' [Hk _]].
  unfold is_chord_map in Hm. rewrite Forall_forall in Hm.
  apply (Hm _ Hk).
Qed.

(** Without negative degrees the output is the text with annotations put
    in. *)
Lemma annotate_text_inserts (text : str) (chord_map : dict str Z) :
  (forall chord degree,
      dict_get str_eqb chord_map chord = Some degree -> (0 <= degree)%Z) ->
  annotation_of text (annotate_text text chord_map).
Proof.
  intros Hpos. unfold annotation_of.
  exists (insertions text chord_map (finditer CHORD_REGEX text)).
  pose proof (finditer_chained text) as Hch.
  pose proof (insertions_ascending text chord_map _ 0 Hch) as Hasc.
  split; [assumption|].
  split; [apply insertions_annotations; [assumption|apply incl_refl]|].
  split; [now apply annotate_pieces_splice|].
  now rewrite splice_erase.
Qed.

(** C3: for every text and every chord map, a map from chord symbols to
    degrees 1 to 7, the output is the input with annotations of the form
    space, bracket, decimal digits, bracket inserted at ends of chord
    matches, in increasing order; taking the insertions out gives the input
    back, so no character is deleted or reordered and the text between the
    matches is copied through. *)
Theorem annotate_text_only_inserts (text : str) (chord_map : dict str Z) :
  is_chord_map chord_map ->
  annotation_of text (annotate_text text chord_map).
Proof.
  intros Hm. apply annotate_text_inserts.
  intros chord degree Hd.
  pose proof (chord_map_degree chord_map chord degree Hm Hd). lia.
Qed.

Lemma annotate_text_only_inserts_witness :
  is_chord_map C_MAJOR_MAP
  /\ annotation_of (lit "C F G Am") (annotate_text (lit "C F G Am") C_MAJOR_MAP).
Proof.
  assert (Hm : is_chord_map C_MAJOR_MAP)
    by (repeat constructor; simpl; lia).
  split; [assumption|].
  apply (annotate_text_only_inserts (lit "C F G Am") C_MAJOR_MAP Hm).
Defined.

(** ** The guards of annotate_text *)

Lemma skipn_app_shift (text pre post : str) (i : nat) :
  skipn i text = pre ++ post -> skipn (i + length pre) text = post.
Proof.
  intros H. rewrite Nat.add_comm, <- skipn_skipn, H.
  apply skipn_length_app.
Qed.

Lemma skipn_cons_char_at (text rest : str) (i : nat) (c : ascii) :
  skipn i text = c :: rest ->
  char_at text i = Some c /\ i < length text /\ skipn (S i) text = rest.
Proof.
  intros H.
  assert (Hc : char_at text i = Some c).
  { unfold char_at. rewrite <- hd_error_skipn, H. reflexivity. }
  split; [assumption|]. split.
  - apply nth_error_Some. unfold char_at in Hc. congruence.
  - change (c :: rest) with ([c] ++ rest) in H.
    apply skipn_app_shift in H. simpl in H.
    now rewrite Nat.add_1_r in H.
Qed.

Lemma advance_run (p : ascii -> bool) (run : str) (c : ascii) (rest : str)
  (idx : nat) :
  forallb p run = true -> p c = false ->
  advance p (run ++ c :: rest) idx = idx + length run.
Proof.
  intros Hrun Hc. revert idx.
  induction run as [|d run IH]; intros idx; simpl.
  - rewrite Hc. lia.
  - simpl in Hrun. apply andb_true_iff in Hrun. destruct Hrun as [Hd Hrun].
    rewrite Hd, (IH Hrun). lia.
Qed.

(** The guard sees a degree where the specification describes one. *)
Lemma degree_follows_already (text : str) (idx : nat) :
  degree_follows text idx -> _already_has_degree text idx = true.
Proof.
  intros [ws [ds [rest [Hskip [Hws [Hne Hds]]]]]].
  unfold _already_has_degree, skip_while.
  rewrite Hskip, (advance_run isspace ws "("%char _ idx Hws eq_refl).
  apply skipn_app_shift in Hskip.
  destruct (skipn_cons_char_at _ _ _ _ Hskip) as [Hc [Hlt Hnext]].
  assert (Hle : (length text <=? idx + length ws) = false)
    by (apply Nat.leb_gt; assumption).
  rewrite Hle. unfold char_is at 1. rewrite Hc. simpl negb. simpl orb.
  cbv iota.
  rewrite Hnext, (advance_run isdigit ds ")"%char rest _ Hds eq_refl).
  replace (S (idx + length ws) + length ds)
    with (S (idx + length ws + length ds)) by lia.
  apply skipn_app_shift in Hnext.
  destruct (skipn_cons_char_at _ _ _ _ Hnext) as [Hc' [Hlt' _]].
  replace (S (idx + length ws) + length ds)
    with (S (idx + length ws + length ds)) in Hc', Hlt' by lia.
  unfold char_is. rewrite Hc'.
  assert (0 < length ds) by (destruct ds; [congruence|simpl; lia]).
  rewrite !andb_true_iff. repeat split.
  - apply Nat.ltb_lt. lia.
  - apply Nat.ltb_lt. assumption.
Qed.

(** A match followed by a degree is emitted as it stands. *)
Lemma annotate_match_degree_follows (text : str) (chord_map : dict str Z)
  (s e : nat) :
  degree_follows text e ->
  annotate_match text chord_map s e = slice text s e.
Proof.
  intros H. apply degree_follows_already in H.
  unfold annotate_match. rewrite H.
  destruct (followed_by_lowercase text e); [reflexivity|].
  destruct (lone_letter_is_article text (slice text s e) e); reflexivity.
Qed.

(** C4 as stated fails: on a chord line that ends in a full stop the
    first pass leaves the lone letter [F] alone, because the next word
    [Am.] is not chord-shaped, and the second pass annotates it, because
    the next word is now [Am]. *)
Lemma annotate_text_not_idempotent :
  In (mkTonality (lit "C") (lit "major") (lit "C") C_MAJOR_MAP) TONALITIES
  /\ annotate_text (lit "F Am.") C_MAJOR_MAP = lit "F Am (6)."
  /\ annotate_text (annotate_text (lit "F Am.") C_MAJOR_MAP) C_MAJOR_MAP
     = lit "F (4) Am (6)."
  /\ annotate_text (annotate_text (lit "F Am.") C_MAJOR_MAP) C_MAJOR_MAP
     <> annotate_text (lit "F Am.") C_MAJOR_MAP.
Proof.
  split; [vm_compute; auto|].
  split; [vm_compute; reflexivity|].
  split; [vm_compute; reflexivity|].
  vm_compute. discriminate.
Qed.

Lemma slice_single (text : str) (s : nat) (c : ascii) :
  char_at text s = Some c -> slice text s (S s) = [c].
Proof.
  unfold char_at, slice. rewrite <- hd_error_skipn.
  replace (S s - s) with 1 by lia.
  destruct (skipn s text); simpl; [discriminate|].
  intros H. now inversion H.
Qed.

Lemma note_letter_upper (c : ascii) :
  In c NOTE_LETTERS ->
  existsb (str_eqb (upper [c]))
    (map lit ["A"; "B"; "C"; "D"; "E"; "F"; "G"; "H"]) = true.
Proof.
  intros H. simpl in H.
  repeat (destruct H as [<-|H]; [vm_compute; reflexivity|]).
  destruct H.
Qed.

(** C6, as amended: a one-letter match followed by a space character, where
    more text follows the spaces and the run of non-whitespace characters
    that starts there is not chord-shaped, is emitted as it stands. *)
Theorem lone_letter_verbatim (text : str) (chord_map : dict str Z) (s e : nat) :
  In (s, e) (finditer CHORD_REGEX text) ->
  e = S s ->
  char_is text e " " = true ->
  skip_while is_blank text (S e) < length text ->
  is_next_word_chord
    (slice text (skip_while is_blank text (S e))
       (skip_while non_space text (skip_while is_blank text (S e)))) = false ->
  annotate_match text chord_map s e = slice text s e.
Proof.
  intros Hin -> Hsp Hmore Hword.
  destruct (finditer_match text s (S s) Hin) as [_ [_ [c [Hc Hnote]]]].
  unfold annotate_match.
  destruct (followed_by_lowercase text (S s)); [reflexivity|].
  assert (Hart : lone_letter_is_article text (slice text s (S s)) (S s) = true).
  { unfold lone_letter_is_article.
    rewrite (slice_single text s c Hc).
    rewrite (note_letter_upper c Hnote). simpl length. simpl Nat.eqb.
    simpl andb. cbv iota.
    assert (Hlt : (S s <? length text) = true).
    { apply Nat.ltb_lt. unfold char_is in Hsp.
      destruct (char_at text (S s)) eqn:E; [|discriminate].
      apply nth_error_Some. unfold char_at in E. congruence. }
    rewrite Hlt, Hsp. simpl andb. cbv iota.
    apply Nat.ltb_lt in Hmore. rewrite Hmore, Hword. reflexivity. }
  now rewrite Hart.
Qed.

Lemma lone_letter_verbatim_witness :
  In (0, 1) (finditer CHORD_REGEX (lit "A day"))
  /\ char_is (lit "A day") 1 " " = true
  /\ skip_while is_blank (lit "A day") 2 < length (lit "A day")
  /\ annotate_match (lit "A day") [(lit "A", 1%Z)] 0 1 = lit "A".
Proof.
  assert (H1 : In (0, 1) (finditer CHORD_REGEX (lit "A day")))
    by (vm_compute; auto).
  assert (H2 : char_is (lit "A day") 1 " " = true) by reflexivity.
  assert (H3 : skip_while is_blank (lit "A day") 2 < length (lit "A day"))
    by (vm_compute; lia).
  split; [assumption|]. split; [assumption|]. split; [assumption|].
  apply (lone_letter_verbatim (lit "A day") [(lit "A", 1%Z)] 0 1
           H1 eq_refl H2 H3).
  vm_compute. reflexivity.
Defined.

(** C6 as stated fails: the letter [A] at the end of a line is followed by
    whitespace, a newline, and the next word [day] is not chord-shaped, yet
    the letter is annotated. *)
Lemma lone_letter_before_newline :
  annotate_text (lit "A" ++ [newline] ++ lit "day") [(lit "A", 1%Z)]
  = lit "A (1)" ++ [newline] ++ lit "day"
  /\ ~ article_guard_as_specified
        (lit "A" ++ [newline] ++ lit "day") [(lit "A", 1%Z)] 0 1.
Proof.
  split; [vm_compute; reflexivity|].
  intros H. unfold article_guard_as_specified in H.
  assert (H1 : In (0, 1)
                 (finditer CHORD_REGEX (lit "A" ++ [newline] ++ lit "day")))
    by (vm_compute; auto).
  assert (H2 : exists c,
             slice (lit "A" ++ [newline] ++ lit "day") 0 1 = [c]
             /\ In c (lit "ABCDEFGH"))
    by (exists "A"%char; split; [reflexivity|simpl; auto]).
  assert (H3 : exists w,
             char_at (lit "A" ++ [newline] ++ lit "day") 1 = Some w
             /\ isspace w = true)
    by (exists newline; split; reflexivity).
  assert (H4 : is_next_word_chord
                 (next_word_after (lit "A" ++ [newline] ++ lit "day") 1)
               = false)
    by (vm_compute; reflexivity).
  specialize (H H1 H2 H3 H4).
  vm_compute in H. discriminate.
Qed.

(** C9: a match followed by a lowercase letter is emitted as it stands, and
    the text [Amazing grace] comes out unchanged whatever the chord map. *)
Theorem word_fragment_verbatim :
  (forall (text : str) (chord_map : dict str Z) (s e : nat) (c : ascii),
      In (s, e) (finditer CHORD_REGEX text) ->
      char_at text e = Some c -> islower c = true -> isalpha c = true ->
      annotate_match text chord_map s e = slice text s e)
  /\ (forall chord_map : dict str Z,
        annotate_text (lit "Amazing grace") chord_map = lit "Amazing grace").
Proof.
  split.
  - intros text chord_map s e c _ Hc Hl Ha.
    unfold annotate_match, followed_by_lowercase.
    now rewrite Hc, Hl, Ha.
  - intros chord_map. unfold annotate_text.
    assert (H : finditer CHORD_REGEX (lit "Amazing grace") = [])
      by (vm_compute; reflexivity).
    rewrite H. reflexivity.
Qed.

Lemma word_fragment_verbatim_witness :
  In (0, 1) (finditer CHORD_REGEX (lit "C" ++ [e_acute]))
  /\ char_at (lit "C" ++ [e_acute]) 1 = Some e_acute
  /\ islower e_acute = true /\ isalpha e_acute = true
  /\ annotate_match (lit "C" ++ [e_acute]) C_MAJOR_MAP 0 1 = lit "C".
Proof.
  assert (H1 : In (0, 1) (finditer CHORD_REGEX (lit "C" ++ [e_acute])))
    by (vm_compute; auto).
  split; [assumption|]. split; [reflexivity|].
  split; [vm_compute; reflexivity|]. split; [vm_compute; reflexivity|].
  apply (proj1 word_fragment_verbatim (lit "C" ++ [e_acute]) C_MAJOR_MAP
           0 1 e_acute H1 eq_refl); vm_compute; reflexivity.
Defined.

(** ** select_tonality *)

Lemma score_gt_trans (a b c : score) :
  score_gt a b = true -> score_gt b c = true -> score_gt a c = true.
Proof.
  destruct a as [[a1 a2] a3], b as [[b1 b2] b3], c as [[c1 c2] c3].
  unfold score_gt.
  rewrite !orb_true_iff, !andb_true_iff, !orb_true_iff, !andb_true_iff,
    !Nat.ltb_lt, !Nat.eqb_eq.
  lia.
Qed.

Lemma score_gt_below (w b c : score) :
  score_gt w b = true -> score_gt c b = false -> score_gt w c = true.
Proof.
  destruct w as [[a1 a2] a3], b as [[b1 b2] b3], c as [[c1 c2] c3].
  unfold score_gt.
  rewrite !orb_false_iff, !andb_false_iff, !orb_false_iff, !andb_false_iff,
    !orb_true_iff, !andb_true_iff, !orb_true_iff, !andb_true_iff,
    !Nat.ltb_lt, !Nat.eqb_eq, !Nat.ltb_ge, !Nat.eqb_neq.
  lia.
Qed.

(** The loop skips the tonalities that do not take part and keeps the best
    of the others. *)
Lemma select_loop_candidates (allowed : list str) (chords : list str)
  (tonalities : list Tonality) (best : option (score * Tonality)) :
  select_loop allowed chords tonalities best
  = fold_left (keep_best chords)
      (filter (is_candidate allowed chords) tonalities) best.
Proof.
  revert best. induction tonalities as [|t ts IH]; intros best;
    cbn [select_loop filter]; [reflexivity|].
  assert (Hc : is_candidate allowed chords t
               = mode_allowed allowed t && negb (total_hits chords t =? 0))
    by reflexivity.
  rewrite Hc.
  destruct (mode_allowed allowed t); cbn [negb andb]; [|apply IH].
  destruct (total_hits chords t =? 0); cbn [negb andb fold_left];
    [apply IH|].
  cbv zeta.
  destruct best as [[bs bt]|];
    [destruct (score_gt (score_of chords t) bs) eqn:Hgt|];
    rewrite IH; f_equal; unfold keep_best; try rewrite Hgt; reflexivity.
Qed.

Lemma keep_best_first_best (chords : list str) (cands : list Tonality)
  (b : Tonality) :
  exists w,
    fold_left (keep_best chords) cands (Some (score_of chords b, b))
    = Some (score_of chords w, w)
    /\ first_best chords (b :: cands) w.
Proof.
  revert b. induction cands as [|c cands IH]; intros b.
  - exists b. split; [reflexivity|].
    exists [], []. repeat split; constructor.
  - cbn [fold_left].
    assert (Hstep : keep_best chords (Some (score_of chords b, b)) c
                    = if score_gt (score_of chords c) (score_of chords b)
                      then Some (score_of chords c, c)
                      else Some (score_of chords b, b)) by reflexivity.
    rewrite Hstep.
    destruct (score_gt (score_of chords c) (score_of chords b)) eqn:Hgt.
    + destruct (IH c) as [w [Hw [before [after [Heq [Hb Ha]]]]]].
      exists w. split; [assumption|].
      exists (b :: before), after.
      split; [simpl; now rewrite Heq|].
      split; [|assumption].
      constructor; [|assumption].
      destruct before as [|x before]; simpl in Heq;
        injection Heq as Hx Hrest.
      * rewrite <- Hx. assumption.
      * rewrite Hx in Hgt. inversion Hb as [|y l Hy Hl]; subst y l.
        eapply score_gt_trans; eassumption.
    + destruct (IH b) as [w [Hw [before [after [Heq [Hb Ha]]]]]].
      exists w. split; [assumption|].
      destruct before as [|x before]; simpl in Heq;
        injection Heq as Hx Hrest.
      * exists [], (c :: after).
        split; [simpl; now rewrite Hx, Hrest|]. split; [constructor|].
        constructor; [now rewrite <- Hx|assumption].
      * exists (b :: c :: before), after.
        split; [simpl; now rewrite Hrest|]. split; [|assumption].
        inversion Hb as [|y l Hy Hl]; subst y l.
        constructor; [now rewrite Hx|].
        constructor; [|assumption].
        rewrite <- Hx in Hy.
        eapply score_gt_below; eassumption.
Qed.

(** Without an explicit key and with chords, the result is decided by the
    candidates. *)
Lemma select_tonality_auto (key_arg mode_arg : option str) (chords : list str) :
  truthy key_arg = false -> chords <> [] ->
  (select_tonality key_arg mode_arg chords = Raise NoTonalityFound
   /\ candidates mode_arg chords = [])
  \/ (exists w,
        select_tonality key_arg mode_arg chords = Ok w
        /\ first_best chords (candidates mode_arg chords) w).
Proof.
  intros Hkey Hchords.
  assert (Hsel : select_tonality key_arg mode_arg chords
                 = match fold_left (keep_best chords)
                           (candidates mode_arg chords) None with
                   | None => Raise NoTonalityFound
                   | Some (_, tonality) => Ok tonality
                   end).
  { unfold select_tonality, candidates.
    rewrite <- select_loop_candidates.
    destruct key_arg as [[|c k]|]; [|discriminate|];
      (destruct chords; [congruence|reflexivity]). }
  rewrite Hsel.
  destruct (candidates mode_arg chords) as [|b cands].
  - left. split; reflexivity.
  - right. cbn [fold_left].
    change (keep_best chords None b) with (Some (score_of chords b, b)).
    destruct (keep_best_first_best chords cands b) as [w [Hw Hfirst]].
    exists w. rewrite Hw. split; [reflexivity|assumption].
Qed.

(** The lookup table holds the catalogue, each tonality under its own key
    and mode. *)
Lemma tonality_by_key_sound (k m : str) (t : Tonality) :
  dict_get tonality_key_eqb TONALITY_BY_KEY (k, m) = Some t ->
  key t = k /\ mode t = m /\ In t TONALITIES.
Proof.
  intros H. apply dict_get_In in H. destruct H as [[k' m'] [Hin Heq]].
  unfold tonality_key_eqb in Heq. simpl in Heq.
  apply andb_true_iff in Heq. destruct Heq as [Hk Hm].
  apply str_eqb_eq in Hk. apply str_eqb_eq in Hm. subst k' m'.
  assert (A : forallb
                (fun p : str * str * Tonality =>
                   str_eqb (key (snd p)) (fst (fst p))
                   && str_eqb (mode (snd p)) (snd (fst p)))
                TONALITY_BY_KEY = true) by (vm_compute; reflexivity).
  rewrite forallb_forall in A. specialize (A _ Hin). simpl in A.
  apply andb_true_iff in A. destruct A as [Ak Am].
  apply str_eqb_eq in Ak. apply str_eqb_eq in Am.
  split; [assumption|]. split; [assumption|].
  assert (B : map snd TONALITY_BY_KEY = TONALITIES)
    by (vm_compute; reflexivity).
  rewrite <- B. apply in_map_iff. exists (k, m, t). auto.
Qed.

Lemma normalize_key_name_nonempty (name mode : str) :
  normalize_key_name name mode <> Some [].
Proof.
  unfold normalize_key_name.
  destruct (normalize_chord_symbol name) as [[|c symbol]|]; try discriminate.
  destruct (str_eqb mode (lit "major") && endswith (c :: symbol) (lit "m")).
  - destruct (drop_last (c :: symbol)); discriminate.
  - destruct (str_eqb mode (lit "minor")
              && negb (endswith (c :: symbol) (lit "m"))); discriminate.
Qed.

(** With an explicit key the result is the catalogue entry of the
    normalised key and the mode, and nothing is scored. *)
Lemma select_tonality_explicit (c : ascii) (k : str) (mode_arg : option str)
  (chords : list str) :
  select_tonality (Some (c :: k)) mode_arg chords
  = match normalize_key_name (c :: k) (explicit_mode mode_arg) with
    | None => Raise BadKeyName
    | Some normalized_key =>
        match dict_get tonality_key_eqb TONALITY_BY_KEY
                (normalized_key, explicit_mode mode_arg) with
        | None => Raise KeyNotInTable
        | Some t => Ok t
        end
    end.
Proof.
  unfold select_tonality. cbv zeta.
  pose proof (normalize_key_name_nonempty (c :: k) (explicit_mode mode_arg))
    as Hne.
  destruct (normalize_key_name (c :: k) (explicit_mode mode_arg))
    as [[|x n]|] eqn:E; [contradiction|reflexivity|reflexivity].
Qed.

Lemma filter_nil_iff (A : Type) (f : A -> bool) (l : list A) :
  filter f l = [] <-> forall x, In x l -> f x = false.
Proof.
  induction l as [|a l IH]; simpl.
  - split; [intros _ x []|reflexivity].
  - destruct (f a) eqn:E; split.
    + discriminate.
    + intros H. specialize (H a (or_introl eq_refl)). congruence.
    + intros H x [<-|Hx]; [assumption|]. now apply IH.
    + intros H. apply IH. intros x Hx. apply H. now right.
Qed.

Lemma first_best_In (chords : list str) (cands : list Tonality) (w : Tonality) :
  first_best chords cands w -> In w cands.
Proof.
  intros [before [after [-> _]]]. apply in_elt.
Qed.

(** ** The selection against the specification *)

Lemma dict_contains_key (d : dict str Z) (k : str) :
  dict_contains str_eqb d k = true <-> In k (map fst d).
Proof.
  unfold dict_contains.
  induction d as [|[k0 v0] d IH]; cbn [dict_get map fst In].
  - split; [discriminate|tauto].
  - destruct (str_eqb k k0) eqn:E.
    + apply str_eqb_eq in E. subst k0. split; auto.
    + rewrite IH. split; [auto|].
      intros [H|H]; [|assumption]. subst k0.
      rewrite (proj2 (str_eqb_eq k k) eq_refl) in E. discriminate.
Qed.

Lemma in_chord_map_present (t : Tonality) (chord : str) :
  in_chord_map t chord = present (chord_map t) chord.
Proof.
  unfold in_chord_map, present.
  destruct (in_dec str_eq_dec chord (map fst (chord_map t))) as [H|H].
  - now apply dict_contains_key.
  - destruct (dict_contains str_eqb (chord_map t) chord) eqn:E;
      [|reflexivity].
    apply dict_contains_key in E. contradiction.
Qed.

Lemma filter_count (p q : str -> bool) (chords : list str) :
  (forall chord, p chord = q chord) ->
  length (filter p chords) = count_chords q chords.
Proof.
  intros H. induction chords as [|c chords IH]; simpl; [reflexivity|].
  rewrite <- H. destruct (p c); simpl; now rewrite IH.
Qed.

Lemma mapped_to_key (m : dict str Z) (chord : str) (degree : Z) :
  mapped_to m chord degree = true -> In chord (map fst m).
Proof.
  unfold mapped_to. rewrite existsb_exists.
  intros [[k v] [Hin H]]. simpl in H.
  apply andb_true_iff in H. destruct H as [H _].
  apply str_eqb_eq in H. subst k.
  apply in_map_iff. exists (chord, v). auto.
Qed.

Lemma dict_get_mapped_to (m : dict str Z) (chord : str) (degree : Z) :
  NoDup (map fst m) ->
  match dict_get str_eqb m chord with
  | Some d => Z.eqb d degree
  | None => false
  end = mapped_to m chord degree.
Proof.
  induction m as [|[k0 v0] m IH]; intros Hnd; [reflexivity|].
  cbn [map fst] in Hnd. inversion Hnd as [|x l Hnotin Hnd']; subst x l.
  cbn [dict_get]. unfold mapped_to. cbn [existsb fst snd].
  fold (mapped_to m chord degree).
  destruct (str_eqb chord k0) eqn:E.
  - apply str_eqb_eq in E. subst k0.
    rewrite (proj2 (str_eqb_eq chord chord) eq_refl). cbn [andb].
    destruct (mapped_to m chord degree) eqn:Em.
    + apply mapped_to_key in Em. contradiction.
    + now rewrite orb_false_r.
  - assert (E' : str_eqb k0 chord = false).
    { destruct (str_eqb k0 chord) eqn:E2; [|reflexivity].
      apply str_eqb_eq in E2. subst k0.
      rewrite (proj2 (str_eqb_eq chord chord) eq_refl) in E. discriminate. }
    rewrite E'. cbn [andb orb]. now apply IH.
Qed.

Lemma unique_hits_spec (t : Tonality) (chords : list str) :
  unique_hits chords t = spec_unique_hits (chord_map t) chords.
Proof.
  unfold unique_hits, spec_unique_hits.
  apply Permutation_length, NoDup_Permutation.
  - apply NoDup_nodup.
  - apply NoDup_filter, NoDup_nodup.
  - intros x. rewrite nodup_In, !filter_In, nodup_In.
    rewrite in_chord_map_present. unfold present.
    destruct (in_dec str_eq_dec x (map fst (chord_map t)));
      destruct (in_dec str_eq_dec x chords); intuition discriminate.
Qed.

(** On a chord map without repeated keys the three counts of the loop are
    the counts of the specification. *)
Lemma score_of_spec (t : Tonality) (chords : list str) :
  NoDup (map fst (chord_map t)) ->
  score_of chords t = spec_score (chord_map t) chords.
Proof.
  intros Hnd. unfold score_of, spec_score.
  f_equal; [f_equal|].
  - apply filter_count, in_chord_map_present.
  - apply unique_hits_spec.
  - apply filter_count. intros chord. now apply dict_get_mapped_to.
Qed.

Lemma score_gt_lex (a b : score) : score_gt a b = true <-> lex_lt b a.
Proof.
  destruct a as [[a1 a2] a3], b as [[b1 b2] b3].
  unfold score_gt, lex_lt. cbn [fst snd].
  rewrite !orb_true_iff, !andb_true_iff, !orb_true_iff, !andb_true_iff,
    !Nat.ltb_lt, !Nat.eqb_eq.
  tauto.
Qed.

Lemma catalog_keys_NoDup (t : Tonality) :
  In t TONALITIES -> NoDup (map fst (chord_map t)).
Proof.
  intros Hin.
  assert (A : forallb
                (fun t =>
                   if list_eq_dec str_eq_dec
                        (nodup str_eq_dec (map fst (chord_map t)))
                        (map fst (chord_map t))
                   then true else false)
                TONALITIES = true) by (vm_compute; reflexivity).
  rewrite forallb_forall in A. specialize (A t Hin).
  destruct (list_eq_dec str_eq_dec _ _) as [E|]; [|discriminate].
  rewrite <- E. apply NoDup_nodup.
Qed.

Lemma mode_allowed_spec (mode_arg : option str) (t : Tonality) :
  mode_allowed (allowed_modes_of mode_arg) t = true
  <-> spec_mode_allowed mode_arg t.
Proof.
  unfold mode_allowed, allowed_modes_of, spec_mode_allowed.
  destruct mode_arg as [[|c m]|]; cbn [existsb];
    rewrite ?orb_false_r, ?orb_true_iff, !str_eqb_eq; tauto.
Qed.

Lemma is_candidate_spec (mode_arg : option str) (chords : list str)
  (t : Tonality) :
  is_candidate (allowed_modes_of mode_arg) chords t = true
  <-> spec_candidate mode_arg chords t.
Proof.
  unfold is_candidate, spec_candidate.
  rewrite andb_true_iff, mode_allowed_spec, negb_true_iff, Nat.eqb_neq.
  assert (H : total_hits chords t <> 0
              <-> exists chord,
                    In chord chords /\ In chord (map fst (chord_map t))).
  { unfold total_hits. split.
    - intros Hne.
      destruct (filter (in_chord_map t) chords) as [|x l] eqn:E;
        [contradiction|].
      assert (Hx : In x (filter (in_chord_map t) chords))
        by (rewrite E; now left).
      apply filter_In in Hx. destruct Hx as [Hx Hp].
      exists x. split; [assumption|]. now apply dict_contains_key.
    - intros [chord [Hc Hk]] Hz.
      apply length_zero_iff_nil in Hz.
      assert (Hx : In chord (filter (in_chord_map t) chords)).
      { apply filter_In. split; [assumption|].
        now apply dict_contains_key. }
      rewrite Hz in Hx. destruct Hx. }
  now rewrite H.
Qed.

Lemma filter_split (A : Type) (f : A -> bool) (l a b : list A) (x : A) :
  filter f l = a ++ x :: b ->
  exists l1 l2,
    l = l1 ++ x :: l2 /\ filter f l1 = a /\ filter f l2 = b /\ f x = true.
Proof.
  revert a. induction l as [|y l IH]; intros a; simpl.
  - destruct a; discriminate.
  - destruct (f y) eqn:E.
    + destruct a as [|a0 a]; simpl; intros H; inversion H; subst.
      * exists [], l. simpl. auto.
      * destruct (IH a H2) as [l1 [l2 [Hl [H1 [Hb Hx]]]]].
        exists (a0 :: l1), l2. simpl. rewrite E, H1, Hl. auto.
    + intros H. destruct (IH a H) as [l1 [l2 [Hl [H1 [Hb Hx]]]]].
      exists (y :: l1), l2. simpl. rewrite E, Hl. auto.
Qed.

(** The first best candidate of the loop is the winner of the
    specification. *)
Lemma first_best_spec_winner (mode_arg : option str) (chords : list str)
  (w : Tonality) :
  first_best chords (candidates mode_arg chords) w ->
  spec_winner mode_arg chords w.
Proof.
  intros [before [after [Heq [Hb Ha]]]].
  unfold candidates in Heq.
  destruct (filter_split _ _ _ _ _ _ Heq) as [l1 [l2 [Hl [H1 [H2 Hw]]]]].
  assert (Hin : forall t, In t l1 \/ t = w \/ In t l2 -> In t TONALITIES).
  { intros t Ht. rewrite Hl. apply in_or_app.
    destruct Ht as [Ht|[Ht|Ht]]; [now left|right; now left|right; now right]. }
  assert (Hscore : forall t, In t l1 \/ t = w \/ In t l2 ->
                     score_of chords t = spec_score (chord_map t) chords).
  { intros t Ht. apply score_of_spec, catalog_keys_NoDup, Hin, Ht. }
  exists l1, l2. split; [assumption|].
  split; [now apply is_candidate_spec|]. split.
  - intros t Ht Hc. apply is_candidate_spec in Hc.
    assert (Hf : In t before) by (rewrite <- H1; apply filter_In; auto).
    rewrite Forall_forall in Hb. specialize (Hb t Hf).
    apply score_gt_lex in Hb.
    rewrite (Hscore t), (Hscore w) in Hb; auto.
  - intros t Ht Hc Hlt. apply is_candidate_spec in Hc.
    assert (Hf : In t after) by (rewrite <- H2; apply filter_In; auto).
    rewrite Forall_forall in Ha. specialize (Ha t Hf).
    rewrite <- (Hscore t), <- (Hscore w) in Hlt; auto.
    apply score_gt_lex in Hlt. congruence.
Qed.

Lemma candidates_nil_spec (mode_arg : option str) (chords : list str) :
  candidates mode_arg chords = []
  <-> forall t, In t TONALITIES -> ~ spec_candidate mode_arg chords t.
Proof.
  unfold candidates. rewrite filter_nil_iff. split.
  - intros H t Ht Hc. apply is_candidate_spec in Hc.
    rewrite (H t Ht) in Hc. discriminate.
  - intros H t Ht.
    destruct (is_candidate (allowed_modes_of mode_arg) chords t) eqn:E;
      [|reflexivity].
    apply is_candidate_spec in E. now apply H in E.
Qed.

(** C1: without an explicit key and with a non-empty chord sequence, the
    tonality returned is, among the tonalities of the catalogue whose mode
    is allowed and whose chord map holds a chord of the sequence, the one of
    greatest score (totalHits, uniqueChordHits, tonicHits) in the
    lexicographic order, the first of the catalogue among equals; when
    there is none the call fails.  On C, F, G, C the result is C major; a
    tie goes to the first in the catalogue (G, D, Em), and the unique
    chords (A, A, A#, C), the tonic (G, D, Em, G) and the mode decide as
    said. *)
Theorem select_tonality_first_best (key_arg mode_arg : option str)
  (chords : list str) :
  truthy key_arg = false -> chords <> [] ->
  match select_tonality key_arg mode_arg chords with
  | Ok w => spec_winner mode_arg chords w
  | Raise e =>
      e = NoTonalityFound
      /\ forall t, In t TONALITIES -> ~ spec_candidate mode_arg chords t
  end
  /\ (exists t,
        select_tonality None None (map lit ["C"; "F"; "G"; "C"]) = Ok t
        /\ key t = lit "C" /\ mode t = lit "major")
  /\ (exists t,
        select_tonality None None (map lit ["G"; "D"; "Em"]) = Ok t
        /\ key t = lit "D" /\ mode t = lit "major")
  /\ (exists t,
        select_tonality None None (map lit ["A"; "A"; "A#"; "C"]) = Ok t
        /\ key t = lit "F" /\ mode t = lit "major")
  /\ (exists t,
        select_tonality None None (map lit ["G"; "D"; "Em"; "G"]) = Ok t
        /\ key t = lit "G" /\ mode t = lit "major")
  /\ (exists t,
        select_tonality None (Some (lit "Minor"))
          (map lit ["C"; "F"; "G"; "C"]) = Ok t
        /\ key t = lit "A#m" /\ mode t = lit "minor").
Proof.
  intros Hkey Hchords. split.
  - destruct (select_tonality_auto key_arg mode_arg chords Hkey Hchords)
      as [[Hs Hnone]|[w [Hs Hw]]]; rewrite Hs.
    + split; [reflexivity|now apply candidates_nil_spec].
    + now apply first_best_spec_winner.
  - repeat split;
      (eexists; split; [vm_compute; reflexivity|split; reflexivity]).
Qed.

Lemma select_tonality_first_best_witness :
  truthy None = false
  /\ map lit ["G"; "D"; "Em"; "G"] <> []
  /\ match select_tonality None None (map lit ["G"; "D"; "Em"; "G"]) with
     | Ok w => spec_winner None (map lit ["G"; "D"; "Em"; "G"]) w
     | Raise e =>
         e = NoTonalityFound
         /\ forall t, In t TONALITIES ->
              ~ spec_candidate None (map lit ["G"; "D"; "Em"; "G"]) t
     end.
Proof.
  assert (H1 : truthy None = false) by reflexivity.
  assert (H2 : map lit ["G"; "D"; "Em"; "G"] <> []) by discriminate.
  split; [assumption|]. split; [assumption|].
  exact (proj1 (select_tonality_first_best None None
                  (map lit ["G"; "D"; "Em"; "G"]) H1 H2)).
Defined.

Lemma explicit_mode_spec (mode_arg : option str) :
  explicit_mode mode_arg = spec_requested_mode mode_arg.
Proof. destruct mode_arg as [[|c m]|]; reflexivity. Qed.

(** The lookup table finds every tonality of the catalogue under its key
    and mode. *)
Lemma tonality_by_key_complete (t : Tonality) :
  In t TONALITIES ->
  dict_get tonality_key_eqb TONALITY_BY_KEY (key t, mode t) = Some t.
Proof.
  intros Hin.
  assert (A : forallb
                (fun t =>
                   match dict_get tonality_key_eqb TONALITY_BY_KEY
                           (key t, mode t) with
                   | Some t' => tonality_eqb t' t
                   | None => false
                   end)
                TONALITIES = true) by (vm_compute; reflexivity).
  rewrite forallb_forall in A. specialize (A t Hin).
  destruct (dict_get tonality_key_eqb TONALITY_BY_KEY (key t, mode t))
    as [t'|]; [|discriminate].
  unfold tonality_eqb in A.
  destruct (Tonality_eq_dec t' t); [congruence|discriminate].
Qed.

Lemma tonality_by_key_none (k m : str) :
  dict_get tonality_key_eqb TONALITY_BY_KEY (k, m) = None
  <-> forall t, In t TONALITIES -> ~ (key t = k /\ mode t = m).
Proof.
  split.
  - intros Hnone t Hin [Hk Hm].
    pose proof (tonality_by_key_complete t Hin) as H.
    rewrite Hk, Hm in H. congruence.
  - intros H.
    destruct (dict_get tonality_key_eqb TONALITY_BY_KEY (k, m)) as [t|] eqn:E;
      [|reflexivity].
    destruct (tonality_by_key_sound _ _ _ E) as [Hk [Hm Hin]].
    exfalso. apply (H t Hin). auto.
Qed.

(** C2: the call fails with InvalidKey exactly when an explicit key, with
    the mode asked for (major when none is), does not normalise or
    normalises to a key that no tonality of the catalogue has in that mode;
    with NoChordsFound exactly when there is no explicit key and no chord;
    with NoTonalityMatch exactly when there is no explicit key, there are
    chords, and no tonality of an allowed mode holds one of them.  An
    explicit key that resolves returns the tonality of the catalogue with
    the normalised key and the mode, whatever the chords: G major on the
    empty sequence, A minor for Am in minor, A major for Am with no mode,
    A# minor for Bb in MINOR; C in minor and X are rejected. *)
Theorem select_tonality_failures (key_arg mode_arg : option str)
  (chords : list str) :
  (failure (select_tonality key_arg mode_arg chords) = Some InvalidKey
   <-> exists k,
         key_arg = Some k /\ k <> []
         /\ (normalize_key_name k (spec_requested_mode mode_arg) = None
             \/ exists normalized_key,
                  normalize_key_name k (spec_requested_mode mode_arg)
                  = Some normalized_key
                  /\ forall t, In t TONALITIES ->
                       ~ (key t = normalized_key
                          /\ mode t = spec_requested_mode mode_arg)))
  /\ (failure (select_tonality key_arg mode_arg chords) = Some NoChordsFound
      <-> truthy key_arg = false /\ chords = [])
  /\ (failure (select_tonality key_arg mode_arg chords) = Some NoTonalityMatch
      <-> truthy key_arg = false /\ chords <> []
          /\ forall t, In t TONALITIES -> ~ spec_candidate mode_arg chords t)
  /\ (forall k normalized_key t,
        key_arg = Some k -> k <> [] ->
        normalize_key_name k (spec_requested_mode mode_arg)
        = Some normalized_key ->
        In t TONALITIES -> key t = normalized_key ->
        mode t = spec_requested_mode mode_arg ->
        select_tonality key_arg mode_arg chords = Ok t)
  /\ (exists t,
        select_tonality (Some (lit "G")) (Some (lit "major")) [] = Ok t
        /\ key t = lit "G" /\ mode t = lit "major" /\ In t TONALITIES)
  /\ (exists t,
        select_tonality (Some (lit "Am")) (Some (lit "minor")) chords = Ok t
        /\ key t = lit "Am" /\ mode t = lit "minor")
  /\ (exists t,
        select_tonality (Some (lit "Am")) None chords = Ok t
        /\ key t = lit "A" /\ mode t = lit "major")
  /\ (exists t,
        select_tonality (Some (lit "Bb")) (Some (lit "MINOR")) chords = Ok t
        /\ key t = lit "A#m" /\ mode t = lit "minor")
  /\ failure (select_tonality (Some (lit "C")) (Some (lit "minor")) chords)
     = Some InvalidKey
  /\ failure (select_tonality (Some (lit "X")) None chords) = Some InvalidKey
  /\ failure (select_tonality None None []) = Some NoChordsFound
  /\ failure (select_tonality None (Some (lit "dorian")) [lit "C"])
     = Some NoTonalityMatch.
Proof.
  assert (Hexplicit :
    forall c k,
      key_arg = Some (c :: k) ->
      (failure (select_tonality key_arg mode_arg chords) = Some InvalidKey
       <-> (normalize_key_name (c :: k) (spec_requested_mode mode_arg) = None
            \/ exists normalized_key,
                 normalize_key_name (c :: k) (spec_requested_mode mode_arg)
                 = Some normalized_key
                 /\ forall t, In t TONALITIES ->
                      ~ (key t = normalized_key
                         /\ mode t = spec_requested_mode mode_arg)))
      /\ failure (select_tonality key_arg mode_arg chords)
         <> Some NoChordsFound
      /\ failure (select_tonality key_arg mode_arg chords)
         <> Some NoTonalityMatch).
  { intros c k ->. rewrite select_tonality_explicit, explicit_mode_spec.
    destruct (normalize_key_name (c :: k) (spec_requested_mode mode_arg))
      as [nk|] eqn:En.
    - destruct (dict_get tonality_key_eqb TONALITY_BY_KEY
                  (nk, spec_requested_mode mode_arg)) as [t|] eqn:Ed;
        cbn [failure classify].
      + repeat split; try discriminate.
        intros [H|[nk' [H1 H2]]]; [discriminate|].
        inversion H1; subst nk'.
        apply tonality_by_key_none in H2. congruence.
      + repeat split; try discriminate.
        intros _. right. exists nk. split; [reflexivity|].
        now apply tonality_by_key_none.
    - cbn [failure classify]. repeat split; try discriminate.
      intros _. now left. }
  assert (Hauto :
    truthy key_arg = false ->
    failure (select_tonality key_arg mode_arg chords) <> Some InvalidKey
    /\ (failure (select_tonality key_arg mode_arg chords) = Some NoChordsFound
        <-> chords = [])
    /\ (failure (select_tonality key_arg mode_arg chords)
        = Some NoTonalityMatch
        <-> chords <> [] /\ candidates mode_arg chords = [])).
  { intros Hkey. destruct chords as [|ch chords'] eqn:Ech.
    - assert (Hsel : select_tonality key_arg mode_arg [] = Raise NoChordsInText)
        by (destruct key_arg as [[|c k]|]; [reflexivity|discriminate|reflexivity]).
      rewrite Hsel. cbn [failure classify].
      repeat split; try discriminate; try tauto.
    - destruct (select_tonality_auto key_arg mode_arg (ch :: chords') Hkey)
        as [[-> Hnone]|[w [-> Hw]]]; [discriminate| |];
        cbn [failure classify].
      + repeat split; try discriminate; try assumption.
      + repeat split; try discriminate.
        intros [_ Hnone]. apply first_best_In in Hw.
        rewrite Hnone in Hw. destruct Hw. }
  split; [|split; [|split; [|split]]].
  - destruct key_arg as [[|c k]|] eqn:Ek.
    + split.
      * intros H. now apply Hauto in H.
      * intros [k [Hk [Hne _]]]. inversion Hk. congruence.
    + destruct (Hexplicit c k eq_refl) as [H _]. rewrite H. split.
      * intros Hn. exists (c :: k). repeat split; [discriminate|assumption].
      * intros [k' [Hk [_ Hn]]]. inversion Hk; subst k'. assumption.
    + split.
      * intros H. now apply Hauto in H.
      * intros [k [Hk _]]. discriminate.
  - destruct key_arg as [[|c k]|] eqn:Ek.
    + destruct (Hauto eq_refl) as [_ [H _]]. rewrite H. tauto.
    + destruct (Hexplicit c k eq_refl) as [_ [H _]]. split.
      * intros Hn. contradiction.
      * intros [Hn _]. discriminate.
    + destruct (Hauto eq_refl) as [_ [H _]]. rewrite H. tauto.
  - rewrite <- candidates_nil_spec.
    destruct key_arg as [[|c k]|] eqn:Ek.
    + destruct (Hauto eq_refl) as [_ [_ H]]. rewrite H. tauto.
    + destruct (Hexplicit c k eq_refl) as [_ [_ H]]. split.
      * intros Hn. contradiction.
      * intros [Hn _]. discriminate.
    + destruct (Hauto eq_refl) as [_ [_ H]]. rewrite H. tauto.
  - intros k nk t Hk Hne Hn Hin Hkey Hmode. subst key_arg.
    destruct k as [|c k]; [congruence|].
    rewrite select_tonality_explicit, explicit_mode_spec, Hn.
    rewrite <- Hkey, <- Hmode.
    now rewrite (tonality_by_key_complete t Hin).
  - split.
    { eexists. split; [vm_compute; reflexivity|].
      split; [reflexivity|]. split; [reflexivity|]. vm_compute. tauto. }
    split; [eexists; split; [vm_compute; reflexivity|split; reflexivity]|].
    split; [eexists; split; [vm_compute; reflexivity|split; reflexivity]|].
    split; [eexists; split; [vm_compute; reflexivity|split; reflexivity]|].
    repeat split; vm_compute; reflexivity.
Qed.

(** ** The pipeline on sample texts *)

Example extract_chords_line :
  extract_chords (lit "C F G Am") = map lit ["C"; "F"; "G"; "Am"].
Proof. vm_compute. reflexivity. Qed.

Example annotate_detected_key :
  match select_tonality None None (extract_chords (lit "C F G Am")) with
  | Ok t => annotate_text (lit "C F G Am") (chord_map t)
  | Raise _ => []
  end = lit "C (1) F (4) G (5) Am (6)".
Proof. vm_compute. reflexivity. Qed.

Example lyrics_without_chords :
  extract_chords (lit "just some lyrics") = []
  /\ select_tonality None None (extract_chords (lit "just some lyrics"))
     = Raise NoChordsInText.
Proof. split; vm_compute; reflexivity. Qed.

Example slash_and_extension_chords :
  annotate_text (lit "A day Cmaj7/G C#m7b5 Gsus4 Bb+ E-7") C_MAJOR_MAP
  = lit "A day Cmaj7/G (1) C#m7b5 Gsus4 (5) Bb+ E-7".
Proof. vm_compute. reflexivity. Qed.

Example unknown_key_rejected :
  select_tonality (Some (lit "X")) None (map lit ["C"]) = Raise BadKeyName.
Proof. vm_compute. reflexivity. Qed.

(** * Further properties *)

Lemma slice_empty (text : str) (i : nat) : slice text i i = [].
Proof. unfold slice. now rewrite Nat.sub_diag. Qed.

Lemma startswith_firstn (l p : str) :
  startswith l p = true -> firstn (length p) l = p.
Proof.
  revert l. induction p as [|c p IH]; intros l; [reflexivity|].
  destruct l as [|d l]; simpl; [discriminate|].
  rewrite andb_true_iff. intros [Hc Hp].
  apply Ascii.eqb_eq in Hc. subst d. now rewrite (IH l Hp).
Qed.

Lemma Forall_In_weaken (chars chars' : str) (l : str) :
  incl chars chars' ->
  Forall (fun c => In c chars) l -> Forall (fun c => In c chars') l.
Proof.
  intros Hincl. apply Forall_impl. intros c. apply Hincl.
Qed.

Section Takes.
Variable text : str.

Lemma iterate_takes (chars : str)
  (body : nat -> (nat -> option nat) -> option nat)
  (k : nat -> option nat) (fuel : nat) :
  takes text chars body ->
  forall i e,
    i <= length text -> iterate body k fuel i = Some e ->
    exists j,
      i <= j /\ j <= length text /\ k j = Some e
      /\ Forall (fun c => In c chars) (slice text i j).
Proof.
  intros Hbody. induction fuel as [|fuel IH]; intros i e Hi; simpl.
  - intros H. exists i. rewrite slice_empty. auto.
  - destruct (body i _) as [e'|] eqn:E.
    + intros H. inversion H; subst e'; clear H.
      apply Hbody in E; [|assumption].
      destruct E as [j [Hij [Hj [Hk Hs]]]].
      destruct (i <? j); [|discriminate].
      apply IH in Hk; [|assumption].
      destruct Hk as [j' [Hjj' [Hj' [Hk Hs']]]].
      exists j'. repeat split; [lia|assumption|assumption|].
      rewrite (slice_split text i j j') by lia.
      apply Forall_app. split; assumption.
    + intros H. exists i. rewrite slice_empty. auto.
Qed.

Lemma rx_takes (r : regex) : takes text (alphabet r) (rx r text).
Proof.
  induction r as [chars|s|r1 IH1 r2 IH2|r1 IH1 r2 IH2|r1 IH1|r1 IH1| |r1 IH1];
    intros i k e Hi; cbn [rx alphabet].
  - destruct (char_at text i) as [c|] eqn:E; [|discriminate].
    destruct (char_in c chars) eqn:Hc; [|discriminate].
    intros H. exists (S i).
    assert (i < length text)
      by (apply nth_error_Some; unfold char_at in E; congruence).
    repeat split; [lia|lia|assumption|].
    rewrite (slice_single text i c E).
    constructor; [now apply char_in_In|constructor].
  - destruct (startswith (skipn i text) s) eqn:E; [|discriminate].
    pose proof (startswith_length _ _ E) as Hlen.
    rewrite length_skipn in Hlen.
    intros H. exists (i + length s).
    repeat split; [lia|lia|assumption|].
    unfold slice. replace (i + length s - i) with (length s) by lia.
    rewrite (startswith_firstn _ _ E).
    apply Forall_forall. auto.
  - intros H. apply IH1 in H; [|assumption].
    destruct H as [j [Hij [Hj [H Hs]]]].
    apply IH2 in H; [|assumption].
    destruct H as [j' [Hjj' [Hj' [H Hs']]]].
    exists j'. repeat split; [lia|assumption|assumption|].
    rewrite (slice_split text i j j') by lia.
    apply Forall_app. split.
    + eapply Forall_In_weaken; [|eassumption]. apply incl_appl, incl_refl.
    + eapply Forall_In_weaken; [|eassumption]. apply incl_appr, incl_refl.
  - destruct (rx r1 text i k) as [e'|] eqn:E.
    + intros H. inversion H; subst e'.
      apply IH1 in E; [|assumption].
      destruct E as [j [Hij [Hj [Hk Hs]]]].
      exists j. repeat split; try assumption.
      eapply Forall_In_weaken; [|eassumption]. apply incl_appl, incl_refl.
    + intros H. apply IH2 in H; [|assumption].
      destruct H as [j [Hij [Hj [Hk Hs]]]].
      exists j. repeat split; try assumption.
      eapply Forall_In_weaken; [|eassumption]. apply incl_appr, incl_refl.
  - destruct (rx r1 text i k) as [e'|] eqn:E.
    + intros H. inversion H; subst e'. now apply IH1.
    + intros H. exists i. rewrite slice_empty. auto.
  - now apply iterate_takes.
  - destruct (word_boundary text i); [|discriminate].
    intros H. exists i. rewrite slice_empty. auto.
  - destruct (rx r1 text i _); [discriminate|].
    intros H. exists i. rewrite slice_empty. auto.
Qed.

(** What a match of [CHORD_REGEX] is. *)
Lemma chord_match_shape (pos e : nat) :
  match_at CHORD_REGEX text pos = Some e ->
  word_boundary text pos = true
  /\ Forall (fun c => In c MATCH_ALPHABET) (slice text pos e)
  /\ match char_at text e with
     | Some c => char_in c LOWERCASE = false
     | None => True
     end.
Proof.
  intros H.
  assert (Hpos : pos <= length text).
  { apply chord_match_bounds in H. lia. }
  unfold match_at, CHORD_REGEX in H. cbn [rx] in H.
  destruct (word_boundary text pos); [|discriminate].
  split; [reflexivity|].
  change (rx (Seq (Class NOTE_LETTERS)
                (Seq (Opt (Class (lit "#b"))) (Opt (Star CHORD_FRAGMENT))))
            text pos
            (fun j => rx (NotAhead (Class LOWERCASE)) text j (fun e => Some e))
          = Some e) in H.
  apply rx_takes in H; [|assumption].
  destruct H as [j [Hj [Hlen [H Hs]]]].
  cbn [rx] in H.
  destruct (char_at text j) as [c|] eqn:Ec.
  - destruct (char_in c LOWERCASE) eqn:Hl; [discriminate|].
    inversion H; subst j. rewrite Ec. split; [|assumption].
    eapply Forall_In_weaken; [|eassumption].
    intros x Hx.
    assert (A : forallb (fun c => char_in c MATCH_ALPHABET)
                  (alphabet
                     (Seq (Class NOTE_LETTERS)
                        (Seq (Opt (Class (lit "#b")))
                           (Opt (Star CHORD_FRAGMENT))))) = true)
      by (vm_compute; reflexivity).
    rewrite forallb_forall in A. apply char_in_In. now apply A.
  - inversion H; subst j. rewrite Ec. split; [|exact I].
    eapply Forall_In_weaken; [|eassumption].
    intros x Hx.
    assert (A : forallb (fun c => char_in c MATCH_ALPHABET)
                  (alphabet
                     (Seq (Class NOTE_LETTERS)
                        (Seq (Opt (Class (lit "#b")))
                           (Opt (Star CHORD_FRAGMENT))))) = true)
      by (vm_compute; reflexivity).
    rewrite forallb_forall in A. apply char_in_In. now apply A.
Qed.

End Takes.

(** X1: the spans of the chord grammar follow one another without overlap
    inside the text and none is empty; each starts at a word boundary on a
    note letter, holds characters of the chord grammar only, and is not
    followed by a letter a..z. *)
Theorem finditer_spans (text : str) :
  chained 0 (length text) (finditer CHORD_REGEX text)
  /\ forall s e,
       In (s, e) (finditer CHORD_REGEX text) ->
       word_boundary text s = true
       /\ (exists c, char_at text s = Some c /\ In c NOTE_LETTERS)
       /\ Forall (fun c => In c MATCH_ALPHABET) (slice text s e)
       /\ match char_at text e with
          | Some c => char_in c LOWERCASE = false
          | None => True
          end.
Proof.
  split; [apply finditer_chained|].
  intros s e Hin.
  destruct (finditer_match text s e Hin) as [_ [_ Hc]].
  apply scan_In in Hin.
  destruct (chord_match_shape text s e Hin) as [Hb [Hs Hl]].
  auto.
Qed.

(** ** Every match normalises *)

Lemma dropwhile_none (p : ascii -> bool) (l : str) :
  forallb (fun c => negb (p c)) l = true -> dropwhile p l = l.
Proof.
  destruct l as [|c l]; simpl; [reflexivity|].
  rewrite andb_true_iff. intros [Hc _].
  apply negb_true_iff in Hc. now rewrite Hc.
Qed.

Lemma forallb_rev (p : ascii -> bool) (l : str) :
  forallb p l = true -> forallb p (rev l) = true.
Proof.
  rewrite !forallb_forall. intros H x Hx. apply H. now apply in_rev.
Qed.

Lemma strip_none (l : str) :
  forallb (fun c => negb (isspace c)) l = true -> strip l = l.
Proof.
  intros H. unfold strip.
  rewrite (dropwhile_none isspace l H).
  rewrite (dropwhile_none isspace (rev l) (forallb_rev _ _ H)).
  apply rev_involutive.
Qed.

Lemma sub_trailing_punctuation_none (l : str) :
  forallb (fun c => negb (char_in c PUNCTUATION)) l = true ->
  sub_trailing_punctuation l = l.
Proof.
  intros H. unfold sub_trailing_punctuation.
  rewrite (dropwhile_none _ (rev l) (forallb_rev _ _ H)).
  apply rev_involutive.
Qed.

Lemma forallb_takewhile (p q : ascii -> bool) (l : str) :
  forallb q l = true -> forallb q (takewhile p l) = true.
Proof.
  induction l as [|c l IH]; simpl; [reflexivity|].
  rewrite andb_true_iff. intros [Hc Hl].
  destruct (p c); simpl; [|reflexivity].
  now rewrite Hc, IH.
Qed.

Lemma dropwhile_all (p : ascii -> bool) (l : str) :
  forallb p l = true -> dropwhile p l = [].
Proof.
  induction l as [|c l IH]; simpl; [reflexivity|].
  rewrite andb_true_iff. intros [Hc Hl]. now rewrite Hc, IH.
Qed.

Lemma match_tail_line (rest : str) :
  forallb (fun c => negb (Ascii.eqb c newline)) rest = true ->
  match_tail rest <> None.
Proof.
  intros H. unfold match_tail. rewrite (dropwhile_all _ rest H). discriminate.
Qed.

(** A token made of a note letter and characters of the chord grammar
    normalises. *)
Lemma normalize_chord_token (c : ascii) (rest : str) :
  In c NOTE_LETTERS ->
  Forall (fun x => In x MATCH_ALPHABET) rest ->
  exists y, normalize_chord_symbol (c :: rest) = Some y /\ y <> [].
Proof.
  intros Hc Hrest.
  assert (Hall : Forall (fun x => In x MATCH_ALPHABET) (c :: rest)).
  { constructor; [|assumption].
    assert (A : forallb (fun x => char_in x MATCH_ALPHABET) NOTE_LETTERS = true)
      by (vm_compute; reflexivity).
    rewrite forallb_forall in A. apply char_in_In. now apply A. }
  assert (Hprop : forall q : ascii -> bool,
             forallb q MATCH_ALPHABET = true ->
             forallb q (c :: rest) = true).
  { intros q Hq. rewrite forallb_forall in Hq. apply forallb_forall.
    intros x Hx. apply Hq. rewrite Forall_forall in Hall. now apply Hall. }
  assert (Hspace : forallb (fun x => negb (isspace x)) (c :: rest) = true)
    by (apply Hprop; vm_compute; reflexivity).
  assert (Hpunct : forallb (fun x => negb (char_in x PUNCTUATION)) (c :: rest)
                   = true)
    by (apply Hprop; vm_compute; reflexivity).
  assert (Hline : forallb (fun x => negb (Ascii.eqb x newline)) (c :: rest)
                  = true)
    by (apply Hprop; vm_compute; reflexivity).
  assert (Hslash : negb (Ascii.eqb c "/") = true).
  { assert (A : forallb (fun x => negb (Ascii.eqb x "/")) NOTE_LETTERS = true)
      by (vm_compute; reflexivity).
    rewrite forallb_forall in A. now apply A. }
  destruct (normalize_chord_symbol (c :: rest)) as [y|] eqn:E.
  - exists y. split; [reflexivity|].
    apply normalize_in_normal_forms in E.
    assert (A : forallb (fun y => negb (length y =? 0)) NORMAL_FORMS = true)
      by (vm_compute; reflexivity).
    rewrite forallb_forall in A. specialize (A y E).
    destruct y; [discriminate|discriminate].
  - exfalso. unfold normalize_chord_symbol in E.
    rewrite (strip_none _ Hspace) in E.
    rewrite (sub_trailing_punctuation_none _ Hpunct) in E.
    unfold before_slash in E. cbn [takewhile] in E. rewrite Hslash in E.
    assert (Hci : char_in c NOTE_LETTERS = true).
    { unfold char_in. apply existsb_exists.
      exists c. split; [assumption|apply Ascii.eqb_refl]. }
    unfold CHORD_TOKEN_match in E. rewrite Hci in E.
    simpl in Hline. apply andb_true_iff in Hline. destruct Hline as [_ Hline].
    pose proof (forallb_takewhile (fun x => negb (Ascii.eqb x "/")) _ rest Hline)
      as Hcut.
    destruct (takewhile (fun x => negb (Ascii.eqb x "/")) rest) as [|a rest']
      eqn:Et; [discriminate|].
    destruct (char_in a (lit "#b")).
    + simpl in Hcut. apply andb_true_iff in Hcut. destruct Hcut as [_ Hcut].
      pose proof (match_tail_line rest' Hcut) as Hm.
      destruct (match_tail rest'); [discriminate|congruence].
    + pose proof (match_tail_line (a :: rest') Hcut) as Hm.
      destruct (match_tail (a :: rest')); [discriminate|congruence].
Qed.

Lemma slice_cons (text : str) (s e : nat) (c : ascii) :
  s < e -> char_at text s = Some c ->
  slice text s e = c :: slice text (S s) e.
Proof.
  intros Hse Hc.
  rewrite (slice_split text s (S s) e) by lia.
  now rewrite (slice_single text s c Hc).
Qed.

Lemma Forall_tail (A : Type) (P : A -> Prop) (x : A) (l : list A) :
  Forall P (x :: l) -> Forall P l.
Proof. intros H. now inversion H. Qed.

Lemma finditer_normalizes (text : str) (s e : nat) :
  In (s, e) (finditer CHORD_REGEX text) ->
  exists y, normalize_chord_symbol (slice text s e) = Some y /\ y <> [].
Proof.
  intros Hin.
  destruct (finditer_match text s e Hin) as [Hse [_ [c [Hc Hnote]]]].
  apply scan_In in Hin.
  destruct (chord_match_shape text s e Hin) as [_ [Hs _]].
  rewrite (slice_cons text s e c Hse Hc) in *.
  apply normalize_chord_token; [assumption|].
  now apply Forall_tail in Hs.
Qed.

Lemma extract_from_all (text : str) (spans : list (nat * nat)) :
  incl spans (finditer CHORD_REGEX text) ->
  map Some (extract_from text spans)
  = map (fun p => normalize_chord_symbol (slice text (fst p) (snd p))) spans.
Proof.
  induction spans as [|[s e] spans IH]; intros Hincl; [reflexivity|].
  assert (Hin : In (s, e) (finditer CHORD_REGEX text))
    by (apply Hincl; now left).
  assert (Hrest : incl spans (finditer CHORD_REGEX text))
    by (intros x Hx; apply Hincl; now right).
  destruct (finditer_normalizes text s e Hin) as [y [Hy Hne]].
  cbn [extract_from map fst snd]. rewrite Hy.
  destruct y as [|c y]; [congruence|].
  cbn [map]. now rewrite (IH Hrest).
Qed.

(** X2: every match of the chord grammar normalises to a non-empty symbol,
    so [extract_chords] returns the normal form of each match, in order,
    and leaves none out. *)
Theorem extract_chords_every_match (text : str) :
  map Some (extract_chords text)
  = map (fun p => normalize_chord_symbol (slice text (fst p) (snd p)))
      (finditer CHORD_REGEX text)
  /\ length (extract_chords text) = length (finditer CHORD_REGEX text)
  /\ Forall (fun chord => chord <> [] /\ In chord NORMAL_FORMS)
       (extract_chords text).
Proof.
  assert (H : map Some (extract_chords text)
              = map (fun p => normalize_chord_symbol
                                (slice text (fst p) (snd p)))
                  (finditer CHORD_REGEX text))
    by (apply extract_from_all, incl_refl).
  split; [assumption|]. split.
  - rewrite <- (length_map Some), H. apply length_map.
  - apply Forall_forall. intros chord Hin.
    assert (Hin' : In (Some chord)
                     (map (fun p => normalize_chord_symbol
                                      (slice text (fst p) (snd p)))
                        (finditer CHORD_REGEX text)))
      by (rewrite <- H; apply in_map; exact Hin).
    apply in_map_iff in Hin'. destruct Hin' as [[s e] [Hn Hse]].
    cbn [fst snd] in Hn.
    destruct (finditer_normalizes text s e Hse) as [y [Hy Hne]].
    rewrite Hy in Hn. inversion Hn; subst y.
    split; [assumption|]. now apply normalize_in_normal_forms in Hy.
Qed.

(** ** The already-annotated test *)

Lemma advance_split (p : ascii -> bool) (rest : str) (idx : nat) :
  exists run rest',
    rest = run ++ rest'
    /\ forallb p run = true
    /\ advance p rest idx = idx + length run.
Proof.
  revert idx. induction rest as [|c rest IH]; intros idx.
  - exists [], []. simpl. repeat split. lia.
  - simpl. destruct (p c) eqn:Hc.
    + destruct (IH (S idx)) as [run [rest' [Hr [Hp Ha]]]].
      exists (c :: run), rest'. simpl. rewrite Hc, Hp, Ha, Hr.
      repeat split. lia.
    + exists [], (c :: rest). simpl. repeat split. lia.
Qed.

Lemma char_is_skipn (text : str) (i : nat) (c : ascii) :
  char_is text i c = true -> exists rest, skipn i text = c :: rest.
Proof.
  unfold char_is, char_at. rewrite <- hd_error_skipn.
  destruct (skipn i text) as [|c' rest]; simpl; [discriminate|].
  intros H. apply Ascii.eqb_eq in H. subst c'. now exists rest.
Qed.

Lemma already_degree_follows (text : str) (idx : nat) :
  _already_has_degree text idx = true -> degree_follows text idx.
Proof.
  unfold _already_has_degree, skip_while.
  destruct (advance_split isspace (skipn idx text) idx)
    as [ws [rest1 [Hskip [Hws ->]]]].
  destruct (_ || _) eqn:Hguard; [discriminate|].
  apply orb_false_iff in Hguard. destruct Hguard as [_ Hopen].
  apply negb_false_iff in Hopen.
  pose proof (skipn_app_shift _ _ _ _ Hskip) as Hrest1.
  destruct (char_is_skipn _ _ _ Hopen) as [rest2 Hrest2].
  rewrite Hrest1 in Hrest2. rewrite Hrest2 in Hskip, Hrest1. clear Hrest2.
  destruct (skipn_cons_char_at _ _ _ _ Hrest1) as [_ [_ Hnext]].
  rewrite Hnext.
  destruct (advance_split isdigit rest2 (S (idx + length ws)))
    as [ds [rest3 [Hds [Hdigits ->]]]].
  rewrite !andb_true_iff. intros [[Hstart _] Hclose].
  apply Nat.ltb_lt in Hstart.
  rewrite Hds in Hnext.
  pose proof (skipn_app_shift _ _ _ _ Hnext) as Hrest3.
  destruct (char_is_skipn _ _ _ Hclose) as [rest Hrest].
  rewrite Hrest3 in Hrest. rewrite Hrest in Hds. rewrite Hds in Hskip.
  exists ws, ds, rest. repeat split; try assumption.
  intros ->. simpl in Hstart. lia.
Qed.

(** X3: the already-annotated test holds at an index exactly when the text
    from there on is a run of whitespace, an opening bracket, one or more
    digits and a closing bracket. *)
Theorem already_has_degree_iff (text : str) (idx : nat) :
  _already_has_degree text idx = true <-> degree_follows text idx.
Proof.
  split; [apply already_degree_follows|apply degree_follows_already].
Qed.

(** ** Normalisation: what the token keeps and what it drops *)

Lemma dropwhile_barrier (p : ascii -> bool) (l : str) (c : ascii) (m : str) :
  p c = false -> exists r, dropwhile p (l ++ c :: m) = r ++ c :: m.
Proof.
  intros Hc. induction l as [|a l IH]; simpl.
  - rewrite Hc. now exists [].
  - destruct (p a); [assumption|]. now exists (a :: l).
Qed.

Lemma rstrip_barrier (p : ascii -> bool) (a : str) (c : ascii) (b : str) :
  p c = false ->
  exists b', rev (dropwhile p (rev (a ++ c :: b))) = a ++ c :: b'.
Proof.
  intros Hc.
  assert (Hrev : rev (a ++ c :: b) = rev b ++ c :: rev a).
  { rewrite rev_app_distr. simpl. now rewrite <- app_assoc. }
  rewrite Hrev.
  destruct (dropwhile_barrier p (rev b) c (rev a) Hc) as [r ->].
  exists (rev r). rewrite rev_app_distr. simpl.
  now rewrite rev_involutive, <- app_assoc.
Qed.

Lemma dropwhile_suffix (p : ascii -> bool) (l : str) :
  exists pre, l = pre ++ dropwhile p l.
Proof.
  induction l as [|a l IH]; simpl; [now exists []|].
  destruct (p a); [|now exists []].
  destruct IH as [pre IH]. exists (a :: pre). simpl. now rewrite <- IH.
Qed.

Lemma rstrip_prefix (p : ascii -> bool) (l : str) :
  exists suffix, l = rev (dropwhile p (rev l)) ++ suffix.
Proof.
  destruct (dropwhile_suffix p (rev l)) as [pre H].
  exists (rev pre).
  rewrite <- rev_app_distr, <- H. symmetry. apply rev_involutive.
Qed.

Lemma takewhile_prefix (p : ascii -> bool) (l : str) :
  exists suffix, l = takewhile p l ++ suffix.
Proof.
  induction l as [|a l IH]; simpl; [now exists []|].
  destruct (p a); [|now exists (a :: l)].
  destruct IH as [suffix IH]. exists suffix. simpl. now rewrite <- IH.
Qed.

Lemma CHORD_TOKEN_match_head (base g1 g2 tail : str) :
  CHORD_TOKEN_match base = Some (g1, g2, tail) ->
  exists c rest, base = c :: rest /\ g1 = [c].
Proof.
  unfold CHORD_TOKEN_match.
  destruct base as [|c rest]; [discriminate|].
  destruct (char_in c NOTE_LETTERS); [|discriminate].
  destruct rest as [|a rest'].
  - intros H. inversion H. now exists c, [].
  - destruct (char_in a (lit "#b")).
    + destruct (match_tail rest'); [|discriminate].
      intros H. inversion H. now exists c, (a :: rest').
    + destruct (match_tail (a :: rest')); [|discriminate].
      intros H. inversion H. now exists c, (a :: rest').
Qed.

(** A result is spelled from the first character of the stripped token, an
    accidental or none, and a quality or none. *)
Lemma normalize_spelling (symbol y : str) :
  normalize_chord_symbol symbol = Some y ->
  exists c rest a q,
    strip symbol = c :: rest
    /\ In c NOTE_LETTERS
    /\ In a [[]; lit "#"; lit "b"]
    /\ In q [[]; lit "m"]
    /\ y = canonical_note_of (note_of [c] a) ++ q.
Proof.
  unfold normalize_chord_symbol.
  destruct (strip symbol) as [|c0 cleaned] eqn:Es; [discriminate|].
  destruct (CHORD_TOKEN_match _) as [[[g1 g2] tail]|] eqn:Hm; [|discriminate].
  intros H. inversion H; subst y; clear H.
  destruct (CHORD_TOKEN_match_head _ _ _ _ Hm) as [c [rest [Hbase Hg1]]].
  destruct (CHORD_TOKEN_match_groups _ _ _ _ Hm) as [c' [Hg1' [Hc Hg2]]].
  rewrite Hg1 in Hg1'. inversion Hg1'; subst c'. subst g1.
  unfold before_slash in Hbase.
  destruct (takewhile_prefix (fun x => negb (Ascii.eqb x "/"))
              (sub_trailing_punctuation (c0 :: cleaned))) as [s1 H1].
  rewrite Hbase in H1.
  unfold sub_trailing_punctuation in H1.
  destruct (rstrip_prefix (fun x => char_in x PUNCTUATION) (c0 :: cleaned))
    as [s2 H2].
  rewrite H1 in H2. simpl in H2. inversion H2; subst c0.
  exists c. eexists. exists g2, (quality_of tail).
  split; [reflexivity|]. split; [assumption|]. split; [assumption|].
  split; [apply quality_of_cases|reflexivity].
Qed.

(** The token up to a slash decides the result. *)
Lemma normalize_slash_cut (x y : str) :
  forallb (fun c => negb (Ascii.eqb c "/")) x = true ->
  match x with [] => True | c :: _ => isspace c = false end ->
  normalize_chord_symbol (x ++ "/"%char :: y)
  = match CHORD_TOKEN_match x with
    | None => None
    | Some (g1, g2, tail) =>
        Some (canonical_note_of (note_of g1 g2) ++ quality_of tail)
    end.
Proof.
  intros Hx Hhead. unfold normalize_chord_symbol, strip.
  assert (Hfront : dropwhile isspace (x ++ "/"%char :: y) = x ++ "/"%char :: y).
  { destruct x as [|c x]; [reflexivity|]. simpl. now rewrite Hhead. }
  rewrite Hfront.
  destruct (rstrip_barrier isspace x "/"%char y eq_refl) as [y1 ->].
  destruct (x ++ "/"%char :: y1) as [|c0 l] eqn:E;
    [destruct x; discriminate|].
  rewrite <- E. unfold sub_trailing_punctuation.
  destruct (rstrip_barrier (fun c => char_in c PUNCTUATION) x "/"%char y1
              eq_refl) as [y2 ->].
  unfold before_slash.
  destruct (takewhile_app (fun c => negb (Ascii.eqb c "/")) x "/"%char y2
              Hx eq_refl) as [-> _].
  reflexivity.
Qed.

(** X4: what follows the first slash of a token, the bass note, has no
    part in its normal form. *)
Theorem normalize_ignores_bass (x y y' : str) :
  forallb (fun c => negb (Ascii.eqb c "/")) x = true ->
  match x with [] => True | c :: _ => isspace c = false end ->
  normalize_chord_symbol (x ++ "/"%char :: y)
  = normalize_chord_symbol (x ++ "/"%char :: y').
Proof.
  intros Hx Hhead.
  now rewrite (normalize_slash_cut x y Hx Hhead),
    (normalize_slash_cut x y' Hx Hhead).
Qed.

Lemma normalize_ignores_bass_witness :
  normalize_chord_symbol (lit "Cm7" ++ "/"%char :: lit "G")
  = normalize_chord_symbol (lit "Cm7" ++ "/"%char :: lit "Bb.").
Proof.
  apply (normalize_ignores_bass (lit "Cm7") (lit "G") (lit "Bb.")).
  - reflexivity.
  - reflexivity.
Defined.

(** X5: a token whose first character, blanks aside, is a letter A to G
    normalises, when it does, to one of the twelve roots with or without
    [m], and normalising the result gives the result back. *)
Theorem normalize_A_to_G_canonical (symbol y : str) (c : ascii) (rest : str) :
  strip symbol = c :: rest ->
  In c LETTERS_A_TO_G ->
  normalize_chord_symbol symbol = Some y ->
  is_canonical y = true /\ normalize_chord_symbol y = Some y.
Proof.
  intros Hs Hc Hn.
  destruct (normalize_spelling symbol y Hn)
    as [c' [rest' [a [q [Hs' [_ [Ha [Hq ->]]]]]]]].
  rewrite Hs in Hs'. inversion Hs'; subst c' rest'.
  assert (A : forallb
                (fun c =>
                   forallb
                     (fun a =>
                        forallb
                          (fun q =>
                             let y := canonical_note_of (note_of [c] a) ++ q in
                             is_canonical y
                             && match normalize_chord_symbol y with
                                | Some z => str_eqb z y
                                | None => false
                                end)
                          [[]; lit "m"])
                     [[]; lit "#"; lit "b"])
                LETTERS_A_TO_G = true) by (vm_compute; reflexivity).
  rewrite forallb_forall in A. specialize (A c Hc).
  rewrite forallb_forall in A. specialize (A a Ha).
  rewrite forallb_forall in A. specialize (A q Hq).
  cbv zeta in A. apply andb_true_iff in A. destruct A as [A1 A2].
  split; [assumption|].
  match type of A2 with
  | match ?t with _ => _ end = _ => destruct t as [z|] eqn:En
  end; [|discriminate].
  apply str_eqb_eq in A2. now rewrite A2.
Qed.

Lemma normalize_A_to_G_canonical_witness :
  is_canonical (lit "C#") = true
  /\ normalize_chord_symbol (lit "C#") = Some (lit "C#").
Proof.
  apply (normalize_A_to_G_canonical (lit " Dbmaj7/F, ") (lit "C#")
           "D"%char (lit "bmaj7/F,")).
  - vm_compute. reflexivity.
  - simpl. auto 10.
  - vm_compute. reflexivity.
Defined.

(** X6: normalisation succeeds only on a token whose first character,
    blanks aside, is a note letter; an empty or blank token fails. *)
Theorem normalize_needs_note_letter (symbol : str) :
  (strip symbol = []
   \/ exists c rest, strip symbol = c :: rest /\ char_in c NOTE_LETTERS = false) ->
  normalize_chord_symbol symbol = None.
Proof.
  intros H.
  destruct (normalize_chord_symbol symbol) as [y|] eqn:E; [|reflexivity].
  destruct (normalize_spelling symbol y E) as [c [rest [_ [_ [Hs [Hc _]]]]]].
  destruct H as [H|[c' [rest' [H Hc']]]]; rewrite H in Hs; [discriminate|].
  inversion Hs; subst c' rest'.
  assert (Hin : char_in c NOTE_LETTERS = true).
  { unfold char_in. apply existsb_exists.
    exists c. split; [assumption|apply Ascii.eqb_refl]. }
  congruence.
Qed.

Lemma normalize_needs_note_letter_witness :
  normalize_chord_symbol (lit "  x7") = None
  /\ normalize_chord_symbol (lit "   ") = None.
Proof.
  split.
  - apply (normalize_needs_note_letter (lit "  x7")).
    right. exists "x"%char, (lit "7"). split; vm_compute; reflexivity.
  - apply (normalize_needs_note_letter (lit "   ")).
    left. vm_compute. reflexivity.
Defined.

(** ** Key names *)

(** X7: a key name normalises exactly when it does as a chord symbol; for
    the mode major the result never ends in [m], for the mode minor it
    always does, and for any other mode it is the chord symbol itself. *)
Theorem normalize_key_name_mode (name mode : str) :
  (normalize_key_name name mode = None
   <-> normalize_chord_symbol name = None)
  /\ (forall k, normalize_key_name name (lit "major") = Some k ->
        endswith k (lit "m") = false
        /\ (normalize_chord_symbol name = Some k
            \/ normalize_chord_symbol name = Some (k ++ lit "m")))
  /\ (forall k, normalize_key_name name (lit "minor") = Some k ->
        endswith k (lit "m") = true
        /\ (normalize_chord_symbol name = Some k
            \/ exists y, normalize_chord_symbol name = Some y
                         /\ k = y ++ lit "m"))
  /\ (str_eqb mode (lit "major") = false ->
      str_eqb mode (lit "minor") = false ->
      normalize_key_name name mode = normalize_chord_symbol name).
Proof.
  assert (A : forallb
                (fun y =>
                   negb (length y =? 0)
                   && (if endswith y (lit "m")
                       then negb (length (drop_last y) =? 0)
                            && negb (endswith (drop_last y) (lit "m"))
                            && str_eqb (drop_last y ++ lit "m") y
                       else endswith (y ++ lit "m") (lit "m")))
                NORMAL_FORMS = true) by (vm_compute; reflexivity).
  rewrite forallb_forall in A.
  unfold normalize_key_name.
  destruct (normalize_chord_symbol name) as [y|] eqn:En.
  - apply normalize_in_normal_forms in En. specialize (A y En).
    apply andb_true_iff in A. destruct A as [Hne A].
    destruct y as [|c y]; [discriminate|]. clear Hne.
    split; [|split; [|split]].
    + destruct (endswith (c :: y) (lit "m")) eqn:Em.
      * apply andb_true_iff in A. destruct A as [A _].
        apply andb_true_iff in A. destruct A as [A _].
        destruct (str_eqb mode (lit "major")); cbn [andb negb].
        -- destruct (drop_last (c :: y)); [discriminate|].
           split; discriminate.
        -- destruct (str_eqb mode (lit "minor")); cbn [andb negb];
             split; discriminate.
      * destruct (str_eqb mode (lit "major")); cbn [andb negb];
          destruct (str_eqb mode (lit "minor")); cbn [andb negb];
          split; discriminate.
    + intros k. change (str_eqb (lit "major") (lit "major")) with true.
      cbn [andb].
      destruct (endswith (c :: y) (lit "m")) eqn:Em.
      * apply andb_true_iff in A. destruct A as [A A3].
        apply andb_true_iff in A. destruct A as [A1 A2].
        apply negb_true_iff in A2. apply str_eqb_eq in A3.
        destruct (drop_last (c :: y)) as [|d l] eqn:Ed; [discriminate|].
        intros H. inversion H; subst k.
        split; [assumption|]. right. now rewrite A3.
      * change (str_eqb (lit "major") (lit "minor")) with false.
        cbn [andb]. intros H. inversion H; subst k.
        split; [assumption|now left].
    + intros k. change (str_eqb (lit "minor") (lit "major")) with false.
      change (str_eqb (lit "minor") (lit "minor")) with true.
      cbn [andb].
      destruct (endswith (c :: y) (lit "m")) eqn:Em; cbn [negb].
      * intros H. inversion H; subst k. split; [assumption|now left].
      * intros H. inversion H; subst k. split; [assumption|].
        right. now exists (c :: y).
    + intros Hmaj Hmin. rewrite Hmaj, Hmin. reflexivity.
  - split; [tauto|]. split; [discriminate|]. split; [discriminate|].
    reflexivity.
Qed.

(** ** Chord maps *)

Lemma dict_get_app_last (d : dict str Z) (k k' : str) (v : Z) :
  dict_get str_eqb (d ++ [(k', v)]) k
  = match dict_get str_eqb d k with
    | Some x => Some x
    | None => if str_eqb k k' then Some v else None
    end.
Proof.
  induction d as [|[k0 v0] d IH]; cbn [dict_get app]; [reflexivity|].
  destruct (str_eqb k k0); [reflexivity|exact IH].
Qed.

Lemma dict_get_setdefault (d : dict str Z) (k k' : str) (v : Z) :
  dict_get str_eqb (dict_setdefault str_eqb d k' v) k
  = match dict_get str_eqb d k with
    | Some x => Some x
    | None => if str_eqb k k' then Some v else None
    end.
Proof.
  unfold dict_setdefault, dict_contains.
  destruct (dict_get str_eqb d k') as [x|] eqn:E.
  - destruct (dict_get str_eqb d k) as [y|] eqn:Ek; [reflexivity|].
    destruct (str_eqb k k') eqn:Eq; [|reflexivity].
    apply str_eqb_eq in Eq. subst k'. congruence.
  - apply dict_get_app_last.
Qed.

Lemma build_chord_map_get (chords : list str) (idx : Z) (acc : dict str Z)
  (k : str) :
  dict_get str_eqb (build_chord_map chords idx acc) k
  = match dict_get str_eqb acc k with
    | Some d => Some d
    | None => first_degree chords idx k
    end.
Proof.
  revert idx acc. induction chords as [|chord chords IH]; intros idx acc;
    cbn [build_chord_map first_degree].
  - now destruct (dict_get str_eqb acc k).
  - rewrite IH.
    destruct (normalize_chord_symbol chord) as [[|c n]|]; try reflexivity.
    rewrite dict_get_setdefault.
    destruct (dict_get str_eqb acc k); [reflexivity|].
    now destruct (str_eqb k (c :: n)).
Qed.

Lemma normalize_nonempty (symbol : str) :
  normalize_chord_symbol symbol <> Some [].
Proof.
  intros H. apply normalize_in_normal_forms in H.
  assert (A : forallb (fun y => negb (length y =? 0)) NORMAL_FORMS = true)
    by (vm_compute; reflexivity).
  rewrite forallb_forall in A. specialize (A _ H). discriminate.
Qed.

Lemma first_degree_spec (chords : list str) (idx : Z) (k : str) (d : Z) :
  first_degree chords idx k = Some d
  <-> exists i chord,
        nth_error chords i = Some chord
        /\ normalize_chord_symbol chord = Some k
        /\ d = (idx + Z.of_nat i)%Z
        /\ forall j chord',
             j < i -> nth_error chords j = Some chord' ->
             normalize_chord_symbol chord' <> Some k.
Proof.
  revert idx. induction chords as [|chord chords IH]; intros idx;
    cbn [first_degree].
  - split; [discriminate|]. intros [i [ch [H _]]]. destruct i; discriminate.
  - assert (Hrest :
      normalize_chord_symbol chord <> Some k ->
      (first_degree chords (idx + 1)%Z k = Some d
       <-> exists i chord0,
             nth_error (chord :: chords) i = Some chord0
             /\ normalize_chord_symbol chord0 = Some k
             /\ d = (idx + Z.of_nat i)%Z
             /\ forall j chord',
                  j < i -> nth_error (chord :: chords) j = Some chord' ->
                  normalize_chord_symbol chord' <> Some k)).
    { intros Hno. rewrite IH. split.
      - intros [i [ch [Hn [Hk [Hd Hfirst]]]]].
        exists (S i), ch. repeat split; try assumption; [lia|].
        intros j ch' Hj Hnth. destruct j as [|j].
        + simpl in Hnth. inversion Hnth; subst ch'. assumption.
        + simpl in Hnth. apply (Hfirst j); [lia|assumption].
      - intros [i [ch [Hn [Hk [Hd Hfirst]]]]].
        destruct i as [|i].
        + simpl in Hn. inversion Hn; subst ch. contradiction.
        + exists i, ch. simpl in Hn. repeat split; try assumption; [lia|].
          intros j ch' Hj Hnth. apply (Hfirst (S j)); [lia|assumption]. }
    destruct (normalize_chord_symbol chord) as [[|c n]|] eqn:En.
    + exfalso. exact (normalize_nonempty chord En).
    + destruct (str_eqb k (c :: n)) eqn:Eq.
      * apply str_eqb_eq in Eq. subst k. split.
        -- intros H. inversion H; subst d.
           exists 0, chord. repeat split; try assumption; [simpl; lia|].
           intros j ch' Hj. lia.
        -- intros [i [ch [Hn [Hk [Hd Hfirst]]]]].
           destruct i as [|i].
           ++ subst d. simpl. f_equal. lia.
           ++ exfalso. apply (Hfirst 0 chord); [lia|reflexivity|assumption].
      * apply Hrest. intros H. inversion H; subst k.
        rewrite (proj2 (str_eqb_eq _ _) eq_refl) in Eq. discriminate.
    + apply Hrest. discriminate.
Qed.

(** X8: in the chord map built from a scale, a symbol is a key exactly when
    some chord of the scale normalises to it, and its degree is the position,
    counted from 1, of the first such chord: on duplicates the first
    wins. *)
Theorem build_chord_map_first_wins (chords : list str) (k : str) (d : Z) :
  dict_get str_eqb (build_chord_map chords 1%Z []) k = Some d
  <-> exists i chord,
        nth_error chords i = Some chord
        /\ normalize_chord_symbol chord = Some k
        /\ d = (1 + Z.of_nat i)%Z
        /\ forall j chord',
             j < i -> nth_error chords j = Some chord' ->
             normalize_chord_symbol chord' <> Some k.
Proof.
  rewrite build_chord_map_get. cbn [dict_get]. apply first_degree_spec.
Qed.

(** ** The catalogue and the selection *)

Lemma select_tonality_explicit_any (c : ascii) (k : str)
  (mode_arg : option str) (chords chords' : list str) :
  select_tonality (Some (c :: k)) mode_arg chords
  = select_tonality (Some (c :: k)) mode_arg chords'.
Proof. now rewrite !select_tonality_explicit. Qed.

(** X9: every tonality of the catalogue is found again in the lookup table
    under its key and mode, and [select_tonality] with its label as the
    explicit key and its mode returns it, whatever the chords. *)
Theorem catalog_lookup_round_trip (t : Tonality) (chords : list str) :
  In t TONALITIES ->
  dict_get tonality_key_eqb TONALITY_BY_KEY (key t, mode t) = Some t
  /\ select_tonality (Some (label t)) (Some (mode t)) chords = Ok t.
Proof.
  intros Hin.
  assert (A : forallb
                (fun t =>
                   match dict_get tonality_key_eqb TONALITY_BY_KEY
                           (key t, mode t) with
                   | Some t' => tonality_eqb t' t
                   | None => false
                   end
                   && negb (length (label t) =? 0)
                   && match select_tonality (Some (label t)) (Some (mode t)) []
                      with
                      | Ok t' => tonality_eqb t' t
                      | Raise _ => false
                      end)
                TONALITIES = true) by (vm_compute; reflexivity).
  rewrite forallb_forall in A. specialize (A t Hin).
  apply andb_true_iff in A. destruct A as [A A3].
  apply andb_true_iff in A. destruct A as [A1 A2].
  split.
  - destruct (dict_get tonality_key_eqb TONALITY_BY_KEY (key t, mode t))
      as [t'|]; [|discriminate].
    unfold tonality_eqb in A1.
    destruct (Tonality_eq_dec t' t); [now subst|discriminate].
  - destruct (label t) as [|c k] eqn:El; [simpl in A2; discriminate|].
    rewrite (select_tonality_explicit_any c k _ chords []).
    change (@Some (list ascii) (c :: k)) with (@Some str (c :: k)).
    destruct (select_tonality (@Some str (c :: k)) (Some (mode t)) [])
      as [t'|]; [|discriminate A3].
    unfold tonality_eqb in A3.
    destruct (Tonality_eq_dec t' t); [now subst|discriminate].
Qed.

Lemma catalog_lookup_round_trip_witness :
  exists t,
    In t TONALITIES
    /\ label t = lit "A#m"
    /\ select_tonality (Some (lit "A#m")) (Some (lit "minor")) [] = Ok t.
Proof.
  exists (mkTonality (lit "A#m") (lit "minor") (lit "A#m")
            (build_chord_map
               (map lit ["A#m"; "C"; "C#m"; "D#m"; "F"; "F#m"; "G#"]) 1%Z [])).
  assert (Hin : In (mkTonality (lit "A#m") (lit "minor") (lit "A#m")
                      (build_chord_map
                         (map lit ["A#m"; "C"; "C#m"; "D#m"; "F"; "F#m"; "G#"])
                         1%Z []))
                  TONALITIES) by (vm_compute; tauto).
  split; [assumption|]. split; [reflexivity|].
  exact (proj2 (catalog_lookup_round_trip _ [] Hin)).
Defined.

Lemma lower_char_idempotent (c : ascii) :
  lower_char (lower_char c) = lower_char c.
Proof.
  destruct c as [[] [] [] [] [] [] [] []]; vm_compute; reflexivity.
Qed.

Lemma lower_idempotent (s : str) : lower (lower s) = lower s.
Proof.
  unfold lower. rewrite map_map. apply map_ext, lower_char_idempotent.
Qed.

(** X10: the mode argument is read without regard to case: a mode and its
    lower-case form select the same tonality. *)
Theorem select_tonality_mode_case (key_arg : option str) (m : str)
  (chords : list str) :
  select_tonality key_arg (Some m) chords
  = select_tonality key_arg (Some (lower m)) chords.
Proof.
  assert (He : explicit_mode (Some (lower m)) = explicit_mode (Some m)).
  { destruct m as [|c m]; [reflexivity|].
    change (lower (c :: m)) with (lower_char c :: lower m).
    unfold explicit_mode.
    change (lower_char c :: lower m) with (lower (c :: m)).
    apply lower_idempotent. }
  assert (Ha : allowed_modes_of (Some (lower m)) = allowed_modes_of (Some m)).
  { destruct m as [|c m]; [reflexivity|].
    change (lower (c :: m)) with (lower_char c :: lower m).
    unfold allowed_modes_of.
    change (lower_char c :: lower m) with (lower (c :: m)).
    now rewrite lower_idempotent. }
  unfold select_tonality. now rewrite He, Ha.
Qed.

Lemma select_tonality_no_chords (key_arg mode_arg : option str) :
  truthy key_arg = false ->
  select_tonality key_arg mode_arg [] = Raise NoChordsInText.
Proof.
  destruct key_arg as [[|c k]|]; [reflexivity|discriminate|reflexivity].
Qed.

(** A tonality returned is one of the catalogue. *)
Lemma select_tonality_in_catalog (key_arg mode_arg : option str)
  (chords : list str) (t : Tonality) :
  select_tonality key_arg mode_arg chords = Ok t -> In t TONALITIES.
Proof.
  destruct (truthy key_arg) eqn:Hk.
  - destruct key_arg as [[|c k]|]; try discriminate.
    rewrite select_tonality_explicit.
    destruct (normalize_key_name _ _) as [nk|]; [|discriminate].
    destruct (dict_get _ _ _) as [t'|] eqn:Ed; [|discriminate].
    intros H. inversion H; subst t'.
    now apply tonality_by_key_sound in Ed.
  - destruct chords as [|ch chords].
    + rewrite (select_tonality_no_chords _ _ Hk). discriminate.
    + assert (Hne : ch :: chords <> []) by discriminate.
      destruct (select_tonality_auto key_arg mode_arg (ch :: chords) Hk Hne)
        as [[Hs _]|[w [Hs Hw]]]; rewrite Hs; [discriminate|].
      intros H. inversion H; subst w.
      apply first_best_In in Hw. unfold candidates in Hw.
      now apply filter_In in Hw.
Qed.

(** The degrees of the catalogue lie between 1 and 7. *)
Lemma catalog_degrees (t : Tonality) (chord : str) (d : Z) :
  In t TONALITIES ->
  dict_get str_eqb (chord_map t) chord = Some d ->
  (1 <= d <= 7)%Z.
Proof.
  intros Hin Hd. apply dict_get_In in Hd. destruct Hd as [k' [Hk _]].
  assert (A : forallb
                (fun t =>
                   forallb (fun kv : str * Z =>
                              Z.leb 1 (snd kv) && Z.leb (snd kv) 7)
                     (chord_map t))
                TONALITIES = true) by (vm_compute; reflexivity).
  rewrite forallb_forall in A. specialize (A t Hin).
  rewrite forallb_forall in A. specialize (A _ Hk). simpl in A.
  apply andb_true_iff in A. destruct A as [A1 A2].
  apply Z.leb_le in A1. apply Z.leb_le in A2. lia.
Qed.

(** ** The chords of a text and its annotation *)

Lemma extract_chords_In (text : str) (s e : nat) (n : str) :
  In (s, e) (finditer CHORD_REGEX text) ->
  normalize_chord_symbol (slice text s e) = Some n ->
  In n (extract_chords text).
Proof.
  intros Hin Hn.
  pose proof (extract_from_all text (finditer CHORD_REGEX text)
                (incl_refl _)) as H.
  assert (Hs : In (Some n) (map Some (extract_chords text))).
  { unfold extract_chords. rewrite H. apply in_map_iff.
    exists (s, e). auto. }
  apply in_map_iff in Hs. destruct Hs as [n' [Heq Hn']].
  inversion Heq; subst n'. assumption.
Qed.

Lemma extract_chords_nil_iff (text : str) :
  extract_chords text = [] <-> finditer CHORD_REGEX text = [].
Proof.
  pose proof (extract_from_all text (finditer CHORD_REGEX text)
                (incl_refl _)) as H.
  apply (f_equal (@length _)) in H. rewrite !length_map in H.
  fold (extract_chords text) in H.
  split; intros E.
  - rewrite E in H. simpl in H. symmetry in H.
    now apply length_zero_iff_nil in H.
  - rewrite E in H. simpl in H. now apply length_zero_iff_nil in H.
Qed.

(** The insertions of a run, read off the matches and the chord map. *)
Lemma insertions_from_map (text : str) (chord_map : dict str Z)
  (spans : list (nat * nat)) :
  incl spans (finditer CHORD_REGEX text) ->
  Forall
    (fun p =>
       exists start chord degree,
         In (start, fst p) (finditer CHORD_REGEX text)
         /\ normalize_chord_symbol (slice text start (fst p)) = Some chord
         /\ In chord (extract_chords text)
         /\ dict_get str_eqb chord_map chord = Some degree
         /\ degree <> 0%Z
         /\ snd p = lit " (" ++ str_of_int degree ++ lit ")")
    (insertions text chord_map spans).
Proof.
  induction spans as [|[s e] spans IH]; intros Hincl; cbn [insertions];
    [constructor|].
  assert (Hin : In (s, e) (finditer CHORD_REGEX text))
    by (apply Hincl; now left).
  assert (Hrest : incl spans (finditer CHORD_REGEX text))
    by (intros x Hx; apply Hincl; now right).
  specialize (IH Hrest).
  destruct (finditer_match text s e Hin) as [Hse [He _]].
  pose proof (slice_length text s e (Nat.lt_le_incl _ _ Hse) He) as Hlen.
  unfold annotation_suffix.
  destruct (annotate_match_cases text chord_map s e)
    as [H|[n [d [Hn [Hd [Hz [_ [_ [_ H]]]]]]]]]; rewrite H.
  - rewrite <- Hlen, skipn_all. assumption.
  - rewrite <- Hlen, skipn_length_app.
    change (lit " (" ++ str_of_int d ++ lit ")")
      with (" "%char :: "("%char :: str_of_int d ++ lit ")").
    constructor; [|assumption].
    exists s, n, d. cbn [snd fst].
    repeat split; try assumption.
    now apply (extract_chords_In text s e).
Qed.

Lemma splice_length (text : str) (ins : list (nat * str)) (last : nat) :
  ascending last (length text) ins ->
  length (skipn last text) <= length (splice text last ins).
Proof.
  revert last. induction ins as [|[e s] ins IH]; intros last; cbn [splice];
    [lia|].
  cbn [ascending]. intros [H1 [H2 H3]]. specialize (IH e H3).
  rewrite !length_app, slice_length by lia.
  rewrite length_skipn in *. lia.
Qed.

(** X11: for every chord map, negative degrees included, the output is the
    input with strings put in at ends of chord matches, in increasing
    order; each string stands at the end of a match whose normal form is an
    extracted chord and is the degree, other than zero, that the map gives
    this chord, in brackets after a space; taking the strings out gives the
    input back, and the output is never shorter than the input. *)
Theorem annotate_text_structure (text : str) (chord_map : dict str Z) :
  exists ins : list (nat * str),
    ascending 0 (length text) ins
    /\ annotate_text text chord_map = splice text 0 ins
    /\ splice text 0 (erase ins) = text
    /\ Forall
         (fun p =>
            exists start chord degree,
              In (start, fst p) (finditer CHORD_REGEX text)
              /\ normalize_chord_symbol (slice text start (fst p))
                 = Some chord
              /\ In chord (extract_chords text)
              /\ dict_get str_eqb chord_map chord = Some degree
              /\ degree <> 0%Z
              /\ snd p = lit " (" ++ str_of_int degree ++ lit ")")
         ins
    /\ length text <= length (annotate_text text chord_map).
Proof.
  exists (insertions text chord_map (finditer CHORD_REGEX text)).
  pose proof (finditer_chained text) as Hch.
  pose proof (insertions_ascending text chord_map _ 0 Hch) as Hasc.
  assert (Hout : annotate_text text chord_map
                 = splice text 0
                     (insertions text chord_map (finditer CHORD_REGEX text)))
    by (now apply annotate_pieces_splice).
  split; [assumption|]. split; [assumption|].
  split; [now rewrite splice_erase|].
  split; [apply insertions_from_map, incl_refl|].
  rewrite Hout. apply (splice_length text _ 0 Hasc).
Qed.

(** X12: when the chord map gives no extracted chord a degree other than
    zero, the text comes out unchanged; so it does for the empty map. *)
Theorem annotate_text_identity (text : str) (chord_map : dict str Z) :
  (forall chord,
      In chord (extract_chords text) ->
      dict_get str_eqb chord_map chord = None
      \/ dict_get str_eqb chord_map chord = Some 0%Z) ->
  annotate_text text chord_map = text.
Proof.
  intros Hnone.
  pose proof (insertions_from_map text chord_map (finditer CHORD_REGEX text)
                (incl_refl _)) as Hins.
  assert (Hout : annotate_text text chord_map
                 = splice text 0
                     (insertions text chord_map (finditer CHORD_REGEX text)))
    by (apply annotate_pieces_splice, finditer_chained).
  rewrite Hout.
  destruct (insertions text chord_map (finditer CHORD_REGEX text))
    as [|p ins]; [reflexivity|].
  exfalso.
  inversion Hins as [|x l [start [chord [d [_ [_ [Hin [Hd [Hz _]]]]]]]] Hrest].
  destruct (Hnone chord Hin) as [Hc|Hc]; rewrite Hc in Hd; [discriminate|].
  inversion Hd. congruence.
Qed.

Lemma annotate_text_identity_witness :
  annotate_text (lit "Em C G D, all day") [(lit "F#", 4%Z); (lit "G", 0%Z)]
  = lit "Em C G D, all day".
Proof.
  apply (annotate_text_identity (lit "Em C G D, all day")
           [(lit "F#", 4%Z); (lit "G", 0%Z)]).
  intros chord Hin. vm_compute in Hin.
  repeat (destruct Hin as [<-|Hin]; [vm_compute; auto|]).
  destruct Hin.
Defined.

(** ** A second run of annotate_text *)

(** The insertions of a run are the annotations of the matches that the
    run annotates. *)
Lemma insertions_In (text : str) (chord_map : dict str Z)
  (spans : list (nat * nat)) (stop : nat) (s : str) :
  incl spans (finditer CHORD_REGEX text) ->
  In (stop, s) (insertions text chord_map spans)
  <-> s <> []
      /\ exists start,
           In (start, stop) spans
           /\ annotate_match text chord_map start stop
              = slice text start stop ++ s.
Proof.
  induction spans as [|[s0 e0] spans IH]; intros Hincl; cbn [insertions].
  - split; [intros []|intros [_ [start [[] _]]]].
  - assert (Hin : In (s0, e0) (finditer CHORD_REGEX text))
      by (apply Hincl; now left).
    assert (Hrest : incl spans (finditer CHORD_REGEX text))
      by (intros x Hx; apply Hincl; now right).
    specialize (IH Hrest).
    destruct (finditer_match text s0 e0 Hin) as [Hse [He _]].
    pose proof (annotate_match_suffix text chord_map s0 e0
                  (Nat.lt_le_incl _ _ Hse) He) as Hm.
    destruct (annotation_suffix text chord_map s0 e0) as [|c suffix] eqn:E.
    + rewrite IH. split.
      * intros [Hne [start [Hs Ha]]]. split; [assumption|].
        exists start. split; [now right|assumption].
      * intros [Hne [start [[Hs|Hs] Ha]]].
        -- inversion Hs; subst start stop. rewrite Hm in Ha.
           apply app_inv_head in Ha. exfalso. apply Hne. now symmetry.
        -- split; [assumption|]. exists start. auto.
    + cbn [In]. rewrite IH. split.
      * intros [Hs|[Hne [start [Hs Ha]]]].
        -- inversion Hs; subst stop s. split; [discriminate|].
           exists s0. split; [now left|assumption].
        -- split; [assumption|]. exists start. split; [now right|assumption].
      * intros [Hne [start [[Hs|Hs] Ha]]].
        -- inversion Hs; subst start stop. rewrite Hm in Ha.
           apply app_inv_head in Ha. left. now rewrite Ha.
        -- right. split; [assumption|]. exists start. auto.
Qed.

Lemma insertions_run (text : str) (chord_map : dict str Z) :
  annotations_of_run text chord_map
    (insertions text chord_map (finditer CHORD_REGEX text)).
Proof.
  pose proof (finditer_chained text) as Hch.
  split; [now apply insertions_ascending|].
  split; [now apply annotate_pieces_splice|].
  intros stop s. apply insertions_In, incl_refl.
Qed.

Lemma landings_In (shift : nat) (ins : list (nat * str)) (q : nat) (s : str) :
  In (q, s) (landings shift ins) -> exists e, In (e, s) ins.
Proof.
  revert shift. induction ins as [|[e0 s0] ins IH]; intros shift;
    cbn [landings In]; [intros []|].
  intros [H|H].
  - inversion H; subst. exists e0. now left.
  - destruct (IH _ H) as [e He]. exists e. now right.
Qed.

(** In the text that [splice] builds, each string stands at its landing
    index. *)
Lemma splice_landing (text pre : str) (last shift : nat)
  (ins : list (nat * str)) (q : nat) (s : str) :
  ascending last (length text) ins ->
  length pre = last + shift ->
  In (q, s) (landings shift ins) ->
  exists rest, skipn q (pre ++ splice text last ins) = s ++ rest.
Proof.
  revert pre last shift.
  induction ins as [|[e0 s0] ins IH]; intros pre last shift;
    cbn [landings In ascending splice]; [intros _ _ []|].
  intros [H1 [H2 H3]] Hpre [H|H].
  - inversion H; subst q s.
    exists (splice text e0 ins).
    rewrite app_assoc.
    replace (e0 + shift) with (length (pre ++ slice text last e0)).
    + apply skipn_length_app.
    + rewrite length_app, slice_length by lia. lia.
  - rewrite !app_assoc. rewrite <- (app_assoc pre).
    apply (IH _ e0 (shift + length s0)); [assumption| |assumption].
    rewrite !length_app, slice_length by lia. lia.
Qed.

Lemma firstn_length_app (A : Type) (l l' : list A) :
  firstn (length l) (l ++ l') = l.
Proof. induction l; simpl; [reflexivity|now f_equal]. Qed.

(** The annotation of a degree from 1 to 7, at the head of a text, is
    what the already-annotated test looks for. *)
Lemma degree_annotation (degree : Z) (text rest : str) (q : nat) :
  (1 <= degree <= 7)%Z ->
  skipn q text = (lit " (" ++ str_of_int degree ++ lit ")") ++ rest ->
  is_annotation (lit " (" ++ str_of_int degree ++ lit ")") = true
  /\ degree_follows text q.
Proof.
  intros Hd Hskip.
  assert (Hcases : degree = 1%Z \/ degree = 2%Z \/ degree = 3%Z
                   \/ degree = 4%Z \/ degree = 5%Z \/ degree = 6%Z
                   \/ degree = 7%Z) by lia.
  split.
  - repeat (destruct Hcases as [->|Hcases]; [reflexivity|]).
    subst degree. reflexivity.
  - exists (lit " "), (str_of_int degree), rest.
    split.
    { rewrite Hskip.
      change (lit " (") with [" "%char; "("%char].
      change (lit ")") with [")"%char].
      change (lit " ") with [" "%char].
      cbn [app]. now rewrite <- app_assoc. }
    split; [reflexivity|].
    repeat (destruct Hcases as [->|Hcases];
            [split; [discriminate|reflexivity]|]).
    subst degree. split; [discriminate|reflexivity].
Qed.

(** C4, as amended: the equation does not hold for every text, yet no
    chord is annotated twice.  For a chord map with degrees 1 to 7 every
    annotation that a first run puts in is, in its output, a degree in
    brackets right after its chord: the already-annotated test holds
    there, the second run emits a match that ends there as it stands and
    puts nothing there; the second run only puts annotations in.  In any
    text a match followed, whitespace skipped, by a bracket, digits and a
    bracket is emitted as it stands.  On the line Am C the second run
    changes nothing. *)
Theorem annotate_text_second_pass (text : str) (chord_map : dict str Z) :
  is_chord_map chord_map ->
  (exists ins ins2,
     annotations_of_run text chord_map ins
     /\ annotations_of_run (annotate_text text chord_map) chord_map ins2
     /\ annotations_recognised text chord_map ins ins2)
  /\ annotation_of (annotate_text text chord_map)
       (annotate_text (annotate_text text chord_map) chord_map)
  /\ (forall text' chord_map' start stop,
        degree_follows text' stop ->
        annotate_match text' chord_map' start stop = slice text' start stop)
  /\ annotate_text (lit "Am C") C_MAJOR_MAP = lit "Am (6) C (1)"
  /\ annotate_text (annotate_text (lit "Am C") C_MAJOR_MAP) C_MAJOR_MAP
     = annotate_text (lit "Am C") C_MAJOR_MAP.
Proof.
  intros Hm.
  split; [|split; [|split; [|split]]].
  - exists (insertions text chord_map (finditer CHORD_REGEX text)).
    exists (insertions (annotate_text text chord_map) chord_map
              (finditer CHORD_REGEX (annotate_text text chord_map))).
    split; [apply insertions_run|]. split; [apply insertions_run|].
    intros q s Hq.
    destruct (insertions_run text chord_map) as [Hasc [Hout _]].
    destruct (splice_landing text [] 0 0 _ q s Hasc eq_refl Hq)
      as [rest Hskip].
    cbn [app] in Hskip. rewrite <- Hout in Hskip.
    destruct (landings_In _ _ _ _ Hq) as [e He].
    pose proof (insertions_from_map text chord_map
                  (finditer CHORD_REGEX text) (incl_refl _)) as Hall.
    rewrite Forall_forall in Hall.
    destruct (Hall _ He) as [start [chord [d [_ [_ [_ [Hd [_ Hs]]]]]]]].
    cbn [snd] in Hs.
    pose proof (chord_map_degree chord_map chord d Hm Hd) as Hrange.
    rewrite Hs in Hskip.
    destruct (degree_annotation d _ rest q Hrange Hskip) as [Hann Hdeg].
    assert (Hverb : forall start',
               annotate_match (annotate_text text chord_map) chord_map
                 start' q
               = slice (annotate_text text chord_map) start' q)
      by (intros start'; now apply annotate_match_degree_follows).
    split; [now rewrite Hs|].
    split; [rewrite Hskip, Hs; apply firstn_length_app|].
    split; [assumption|].
    split; [now apply degree_follows_already|].
    split; [assumption|].
    intros Hin2. apply in_map_iff in Hin2.
    destruct Hin2 as [[q' s2] [Hq' Hin2]]. cbn [fst] in Hq'. subst q'.
    apply insertions_In in Hin2; [|apply incl_refl].
    destruct Hin2 as [Hne [start' [_ Ha]]].
    rewrite Hverb in Ha.
    rewrite <- (app_nil_r (slice _ start' q)) in Ha at 1.
    apply app_inv_head in Ha. congruence.
  - apply annotate_text_inserts.
    intros chord degree Hd.
    pose proof (chord_map_degree chord_map chord degree Hm Hd). lia.
  - intros text' chord_map' start stop.
    apply annotate_match_degree_follows.
  - vm_compute. reflexivity.
  - vm_compute. reflexivity.
Qed.

Lemma annotate_text_second_pass_witness :
  is_chord_map C_MAJOR_MAP
  /\ exists ins ins2,
       annotations_of_run (lit "F Am.") C_MAJOR_MAP ins
       /\ annotations_of_run (annotate_text (lit "F Am.") C_MAJOR_MAP)
            C_MAJOR_MAP ins2
       /\ annotations_recognised (lit "F Am.") C_MAJOR_MAP ins ins2.
Proof.
  assert (Hm : is_chord_map C_MAJOR_MAP)
    by (repeat constructor; simpl; lia).
  split; [assumption|].
  exact (proj1 (annotate_text_second_pass (lit "F Am.") C_MAJOR_MAP Hm)).
Defined.

(** X13: a text without any of the letters A to H, in either case, has no
    chord: nothing is extracted, the annotation leaves it as it is for every
    chord map, and the selection without a key fails for want of chords. *)
Theorem no_note_letter_no_chord (text : str) (chord_map : dict str Z)
  (mode_arg : option str) :
  (forall c, In c text -> ~ In c NOTE_LETTERS) ->
  extract_chords text = []
  /\ annotate_text text chord_map = text
  /\ select_tonality None mode_arg (extract_chords text) = Raise NoChordsInText.
Proof.
  intros Hno.
  assert (Hspans : finditer CHORD_REGEX text = []).
  { destruct (finditer CHORD_REGEX text) as [|[s e] spans] eqn:E;
      [reflexivity|].
    exfalso.
    assert (Hin : In (s, e) (finditer CHORD_REGEX text))
      by (rewrite E; now left).
    destruct (finditer_match text s e Hin) as [_ [_ [c [Hc Hnote]]]].
    apply (Hno c); [|assumption].
    unfold char_at in Hc. now apply nth_error_In in Hc. }
  assert (Hchords : extract_chords text = [])
    by (now apply extract_chords_nil_iff).
  split; [assumption|]. split.
  - unfold annotate_text. rewrite Hspans. simpl. apply app_nil_r.
  - rewrite Hchords. reflexivity.
Qed.

Lemma no_note_letter_no_chord_witness :
  extract_chords (lit "It's only us, lil sis!") = []
  /\ annotate_text (lit "It's only us, lil sis!") C_MAJOR_MAP
     = lit "It's only us, lil sis!"
  /\ select_tonality None None (extract_chords (lit "It's only us, lil sis!"))
     = Raise NoChordsInText.
Proof.
  apply (no_note_letter_no_chord (lit "It's only us, lil sis!") C_MAJOR_MAP None).
  intros c Hin Hnote. vm_compute in Hin.
  repeat (destruct Hin as [<-|Hin];
          [vm_compute in Hnote; intuition discriminate|]).
  destruct Hin.
Defined.

(** ** From the text to the annotated text *)

(** X14: whenever the run from text to annotated text succeeds, with or
    without an explicit key, the result is the text with annotations of the
    form space, bracket, digits, bracket inserted after chord matches, and
    nothing deleted or reordered: the catalogue holds no degree below 1. *)
Theorem annotate_input_only_inserts (key_arg mode_arg : option str)
  (text out : str) :
  annotate_input key_arg mode_arg text = Ok out ->
  annotation_of text out.
Proof.
  unfold annotate_input. cbv zeta.
  destruct (select_tonality key_arg mode_arg (extract_chords text))
    as [t|e] eqn:Es; [|discriminate].
  intros H. inversion H; subst out; clear H.
  apply select_tonality_in_catalog in Es.
  assert (Hpos : forall chord degree,
             dict_get str_eqb (chord_map t) chord = Some degree ->
             (0 <= degree)%Z).
  { intros chord degree Hd.
    pose proof (catalog_degrees t chord degree Es Hd). lia. }
  exists (insertions text (chord_map t) (finditer CHORD_REGEX text)).
  pose proof (finditer_chained text) as Hch.
  pose proof (insertions_ascending text (chord_map t) _ 0 Hch) as Hasc.
  split; [assumption|].
  split; [apply insertions_annotations; [assumption|apply incl_refl]|].
  split; [now apply annotate_pieces_splice|].
  now rewrite splice_erase.
Qed.

Lemma annotate_input_only_inserts_witness :
  annotate_input None None (lit "Am  F  C  G") = Ok (lit "Am (6)  F (4)  C (1)  G (5)")
  /\ annotation_of (lit "Am  F  C  G") (lit "Am (6)  F (4)  C (1)  G (5)").
Proof.
  assert (H : annotate_input None None (lit "Am  F  C  G")
              = Ok (lit "Am (6)  F (4)  C (1)  G (5)"))
    by (vm_compute; reflexivity).
  split; [assumption|].
  exact (annotate_input_only_inserts None None _ _ H).
Defined.

(** X15: the run from text to annotated text fails for want of chords
    exactly when there is no explicit key and the chord grammar has no
    match in the text; with an explicit key the text plays no part in the
    choice of the tonality. *)
Theorem annotate_input_no_chords (key_arg mode_arg : option str) (text : str) :
  (annotate_input key_arg mode_arg text = Raise NoChordsInText
   <-> truthy key_arg = false /\ finditer CHORD_REGEX text = [])
  /\ (truthy key_arg = true ->
      forall text',
        select_tonality key_arg mode_arg (extract_chords text)
        = select_tonality key_arg mode_arg (extract_chords text')).
Proof.
  split.
  - unfold annotate_input. cbv zeta.
    rewrite <- extract_chords_nil_iff.
    destruct (truthy key_arg) eqn:Hk.
    + destruct key_arg as [[|c k]|]; try discriminate.
      rewrite select_tonality_explicit.
      destruct (normalize_key_name _ _) as [nk|];
        [|split; [discriminate|intros [H _]; discriminate]].
      destruct (dict_get _ _ _) as [t|];
        split; try discriminate; intros [H _]; discriminate.
    + destruct (extract_chords text) as [|ch chords] eqn:Ec.
      * rewrite (select_tonality_no_chords _ _ Hk). tauto.
      * assert (Hne : ch :: chords <> []) by discriminate.
        destruct (select_tonality_auto key_arg mode_arg (ch :: chords) Hk Hne)
          as [[Hs _]|[w [Hs _]]]; rewrite Hs;
          split; try discriminate; intros [_ H]; discriminate.
  - intros Hk text'.
    destruct key_arg as [[|c k]|]; try discriminate.
    apply select_tonality_explicit_any.
Qed.

(** ** The order of the chords *)

Lemma Permutation_filter_str (f : str -> bool) (l l' : list str) :
  Permutation l l' -> Permutation (filter f l) (filter f l').
Proof.
  induction 1 as [|x l l' _ IH|x y l|l l' l'' _ IH1 _ IH2]; simpl.
  - constructor.
  - destruct (f x); [now constructor|assumption].
  - destruct (f x), (f y); try apply Permutation_refl. apply perm_swap.
  - eapply Permutation_trans; eassumption.
Qed.

Lemma nodup_length_Permutation (l l' : list str) :
  Permutation l l' ->
  length (nodup str_eq_dec l) = length (nodup str_eq_dec l').
Proof.
  intros H. apply Permutation_length.
  apply NoDup_Permutation; try apply NoDup_nodup.
  intros x. rewrite !nodup_In. split; intros Hx.
  - eapply Permutation_in; eassumption.
  - eapply Permutation_in; [apply Permutation_sym|]; eassumption.
Qed.

Lemma score_of_Permutation (chords chords' : list str) (t : Tonality) :
  Permutation chords chords' ->
  total_hits chords t = total_hits chords' t
  /\ score_of chords t = score_of chords' t.
Proof.
  intros H.
  assert (H1 : total_hits chords t = total_hits chords' t)
    by (apply Permutation_length, Permutation_filter_str, H).
  assert (H2 : unique_hits chords t = unique_hits chords' t)
    by (apply nodup_length_Permutation, Permutation_filter_str, H).
  assert (H3 : tonic_hits chords t = tonic_hits chords' t)
    by (apply Permutation_length, Permutation_filter_str, H).
  split; [assumption|]. unfold score_of. now rewrite H1, H2, H3.
Qed.

Lemma select_loop_Permutation (allowed : list str) (chords chords' : list str)
  (tonalities : list Tonality) (best : option (score * Tonality)) :
  Permutation chords chords' ->
  select_loop allowed chords tonalities best
  = select_loop allowed chords' tonalities best.
Proof.
  intros H. revert best.
  induction tonalities as [|t ts IH]; intros best; cbn [select_loop];
    [reflexivity|].
  destruct (score_of_Permutation chords chords' t H) as [H1 H2].
  rewrite H1, H2. cbv zeta.
  destruct (negb (mode_allowed allowed t)); [apply IH|].
  destruct (total_hits chords' t =? 0); [apply IH|].
  destruct best as [[bs bt]|]; [|apply IH].
  destruct (score_gt (score_of chords' t) bs); apply IH.
Qed.

Lemma select_tonality_order (key_arg mode_arg : option str)
  (chords chords' : list str) :
  Permutation chords chords' ->
  select_tonality key_arg mode_arg chords
  = select_tonality key_arg mode_arg chords'.
Proof.
  intros H. unfold select_tonality.
  rewrite (select_loop_Permutation _ chords chords' TONALITIES None H).
  destruct chords as [|c chords], chords' as [|c' chords'];
    try reflexivity.
  - apply Permutation_nil in H. discriminate.
  - apply Permutation_sym, Permutation_nil in H. discriminate.
Qed.

(** X16: the selection does not depend on the order of the chords: two
    sequences with the same chords the same number of times give the same
    result. *)
Theorem select_tonality_Permutation (key_arg mode_arg : option str)
  (chords chords' : list str) :
  Permutation chords chords' ->
  select_tonality key_arg mode_arg chords
  = select_tonality key_arg mode_arg chords'.
Proof. apply select_tonality_order. Qed.

Lemma select_tonality_Permutation_witness :
  Permutation (map lit ["C"; "F"; "G"; "C"]) (map lit ["G"; "C"; "C"; "F"])
  /\ select_tonality None None (map lit ["C"; "F"; "G"; "C"])
     = select_tonality None None (map lit ["G"; "C"; "C"; "F"]).
Proof.
  assert (H : Permutation (map lit ["C"; "F"; "G"; "C"])
                (map lit ["G"; "C"; "C"; "F"])).
  { simpl.
    apply Permutation_trans with (l' := [lit "C"; lit "G"; lit "F"; lit "C"]).
    - apply perm_skip. apply perm_swap.
    - apply Permutation_trans
        with (l' := [lit "G"; lit "C"; lit "F"; lit "C"]).
      + apply perm_swap.
      + apply perm_skip, perm_skip. apply perm_swap. }
  split; [assumption|].
  exact (select_tonality_Permutation None None _ _ H).
Defined.

(** X17: the detection finds every tonality of the catalogue from its own
    seven chords, in whatever order they come. *)
Theorem select_tonality_own_chords (t : Tonality) (chords : list str) :
  In t TONALITIES ->
  Permutation chords (map fst (chord_map t)) ->
  select_tonality None None chords = Ok t.
Proof.
  intros Hin Hperm.
  rewrite (select_tonality_order None None _ _ Hperm).
  assert (A : forallb
                (fun t =>
                   match select_tonality None None (map fst (chord_map t)) with
                   | Ok t' => tonality_eqb t' t
                   | Raise _ => false
                   end)
                TONALITIES = true) by (vm_compute; reflexivity).
  rewrite forallb_forall in A. specialize (A t Hin).
  destruct (select_tonality None None (map fst (chord_map t))) as [t'|];
    [|discriminate A].
  unfold tonality_eqb in A.
  destruct (Tonality_eq_dec t' t); [now subst|discriminate].
Qed.

Lemma select_tonality_own_chords_witness :
  In (mkTonality (lit "C") (lit "major") (lit "C") C_MAJOR_MAP) TONALITIES
  /\ select_tonality None None
       (map lit ["Bm"; "Am"; "G"; "F"; "Em"; "Dm"; "C"])
     = Ok (mkTonality (lit "C") (lit "major") (lit "C") C_MAJOR_MAP).
Proof.
  assert (Hin : In (mkTonality (lit "C") (lit "major") (lit "C") C_MAJOR_MAP)
                  TONALITIES) by (vm_compute; tauto).
  split; [assumption|].
  apply (select_tonality_own_chords
           (mkTonality (lit "C") (lit "major") (lit "C") C_MAJOR_MAP)
           (map lit ["Bm"; "Am"; "G"; "F"; "Em"; "Dm"; "C"]) Hin).
  apply Permutation_sym.
  exact (Permutation_rev (map fst C_MAJOR_MAP)).
Defined.

(** ** The case of the root letter *)

Lemma rstrip_cons (p : ascii -> bool) (c : ascii) (rest : str) :
  p c = false ->
  rev (dropwhile p (rev (c :: rest))) = c :: rev (dropwhile p (rev rest)).
Proof.
  intros Hc. simpl.
  destruct (dropwhile_suffix p (rev rest)) as [pre Hpre].
  destruct (dropwhile p (rev rest)) as [|d l] eqn:E.
  - assert (Hall : forallb p (rev rest) = true).
    { clear Hpre. revert E. induction (rev rest) as [|x xs IH]; simpl;
        [reflexivity|].
      destruct (p x); [intros H; now rewrite IH|discriminate]. }
    assert (Hd : dropwhile p (rev rest ++ [c]) = [c]).
    { clear E Hpre. induction (rev rest) as [|x xs IH]; simpl.
      - now rewrite Hc.
      - simpl in Hall. apply andb_true_iff in Hall. destruct Hall as [Hx Hxs].
        rewrite Hx. now apply IH. }
    now rewrite Hd.
  - assert (Hd : dropwhile p (rev rest ++ [c]) = (d :: l) ++ [c]).
    { clear Hpre. revert E. induction (rev rest) as [|x xs IH]; simpl;
        [discriminate|].
      destruct (p x); [assumption|].
      intros H. inversion H; subst. reflexivity. }
    rewrite Hd, rev_app_distr. reflexivity.
Qed.

(** X18: the root letter of a token is read without regard to case: a
    token that starts with a note letter and the same token with that
    letter in upper case normalise alike. *)
Theorem normalize_root_case (c : ascii) (rest : str) :
  In c NOTE_LETTERS ->
  normalize_chord_symbol (c :: rest)
  = normalize_chord_symbol (upper_char c :: rest).
Proof.
  intros Hc.
  assert (A : forallb
                (fun c =>
                   negb (isspace c) && negb (isspace (upper_char c))
                   && negb (char_in c PUNCTUATION)
                   && negb (char_in (upper_char c) PUNCTUATION)
                   && negb (Ascii.eqb c "/")
                   && negb (Ascii.eqb (upper_char c) "/")
                   && char_in c NOTE_LETTERS
                   && char_in (upper_char c) NOTE_LETTERS
                   && Ascii.eqb (upper_char (upper_char c)) (upper_char c))
                NOTE_LETTERS = true) by (vm_compute; reflexivity).
  rewrite forallb_forall in A. specialize (A c Hc).
  repeat (apply andb_true_iff in A; destruct A as [A ?]).
  repeat match goal with
         | H : negb _ = true |- _ => apply negb_true_iff in H
         end.
  match goal with H : Ascii.eqb _ _ = true |- _ => apply Ascii.eqb_eq in H end.
  unfold normalize_chord_symbol, strip.
  cbn [dropwhile].
  repeat match goal with H : isspace _ = false |- _ => rewrite H end.
  rewrite !rstrip_cons by assumption.
  unfold sub_trailing_punctuation.
  rewrite !rstrip_cons by assumption.
  unfold before_slash. cbn [takewhile].
  repeat match goal with
         | H : Ascii.eqb _ "/" = false |- _ => rewrite H
         end.
  cbn [negb].
  unfold CHORD_TOKEN_match.
  repeat match goal with
         | H : char_in _ NOTE_LETTERS = true |- _ => rewrite H
         end.
  assert (Hnote : forall g2, note_of [upper_char c] g2 = note_of [c] g2).
  { intros g2. unfold note_of, upper. cbn [app map].
    match goal with
    | H : upper_char (upper_char c) = upper_char c |- _ => now rewrite H
    end. }
  destruct (takewhile _ _) as [|a rest'].
  - now rewrite Hnote.
  - destruct (char_in a (lit "#b")).
    + destruct (match_tail rest'); [|reflexivity]. now rewrite Hnote.
    + destruct (match_tail (a :: rest')); [|reflexivity]. now rewrite Hnote.
Qed.

Lemma normalize_root_case_witness :
  normalize_chord_symbol (lit "bbm7") = normalize_chord_symbol (lit "Bbm7").
Proof.
  apply (normalize_root_case "b"%char (lit "bm7")).
  simpl. auto 20.
Defined.
